(** * core-js-101, 05-objects-tasks.js: Rectangle and the css selector builder

    A shallow embedding of [Rectangle], of the class [ElementsSelector] and
    of the facade [cssSelectorBuilder].  JavaScript objects are mutable and
    are handed around by reference, so the builders and the arrays they
    hold live in a store indexed by locations; a method is a function on
    that store which either returns a value or throws.

    The values passed to the setters and the combinator are text, as in all
    uses of the builder; [JSON.stringify] and [JSON.parse], which [getJSON]
    and [fromJSON] only forward to, are not modelled. *)

From Stdlib Require Import ZArith String List Floats.
From stdpp Require Import base option gmap strings list.

Local Open Scope string_scope.

(** ** Rectangle *)

(** The object literal [{ width, height, getArea() {...} }].  A JavaScript
    number is an IEEE 754 binary64 value. *)
Record rectangle := { width : float; height : float }.

Definition Rectangle (w h : float) : rectangle := {| width := w; height := h |}.

(** [getArea() { return this.width * this.height; }] *)
Definition getArea (this : rectangle) : float := (width this * height this)%float.

(** ** The store *)

Definition loc := positive.

(** What a [throw] carries: [new Error(message)], or the TypeError the
    runtime raises when a property is read through something that is not the
    expected kind of object. *)
Inductive exn :=
  | Error (message : string)
  | TypeError.

Definition OrderViolation : exn :=
  Error "Selector parts should be arranged in the following order: element, id, class, attribute, pseudo-class, pseudo-element".

Definition DuplicateFragment : exn :=
  Error "Element, id and pseudo-element should not occur more then one time inside the selector".

(** The fields of an [ElementsSelector] instance.  A field that was never
    assigned is [undefined], here [None].  [myClass] and [myPseudoClass]
    hold arrays: in the store an array field is a reference ([R := loc]), in
    a snapshot of a builder it is the array's items ([R := list string]). *)
Record ElementsSelector (R : Type) := mkSelector {
  currOrder : Z;
  myElement : option string;
  myId : option string;
  myClass : option R;
  myAttr : option string;
  myPseudoClass : option R;
  myPseudoElement : option string;
  mySelector : option string;
  myCombinator : option string;
  mySelector2 : option string
}.

Arguments mkSelector {R}.
Arguments currOrder {R}.
Arguments myElement {R}.
Arguments myId {R}.
Arguments myClass {R}.
Arguments myAttr {R}.
Arguments myPseudoClass {R}.
Arguments myPseudoElement {R}.
Arguments mySelector {R}.
Arguments myCombinator {R}.
Arguments mySelector2 {R}.

Inductive object :=
  | Selector (s : ElementsSelector loc)
  | Array (items : list string).

Abbreviation heap := (gmap loc object).

Section fields.
Context {R : Type}.
Implicit Type s : ElementsSelector R.

(** Field assignments [this.f = v]. *)
Definition set_currOrder (n : Z) s : ElementsSelector R :=
  mkSelector n (myElement s) (myId s) (myClass s) (myAttr s) (myPseudoClass s)
             (myPseudoElement s) (mySelector s) (myCombinator s) (mySelector2 s).

Definition set_myElement (v : option string) s : ElementsSelector R :=
  mkSelector (currOrder s) v (myId s) (myClass s) (myAttr s) (myPseudoClass s)
             (myPseudoElement s) (mySelector s) (myCombinator s) (mySelector2 s).

Definition set_myId (v : option string) s : ElementsSelector R :=
  mkSelector (currOrder s) (myElement s) v (myClass s) (myAttr s) (myPseudoClass s)
             (myPseudoElement s) (mySelector s) (myCombinator s) (mySelector2 s).

Definition set_myClass (v : option R) s : ElementsSelector R :=
  mkSelector (currOrder s) (myElement s) (myId s) v (myAttr s) (myPseudoClass s)
             (myPseudoElement s) (mySelector s) (myCombinator s) (mySelector2 s).

Definition set_myAttr (v : option string) s : ElementsSelector R :=
  mkSelector (currOrder s) (myElement s) (myId s) (myClass s) v (myPseudoClass s)
             (myPseudoElement s) (mySelector s) (myCombinator s) (mySelector2 s).

Definition set_myPseudoClass (v : option R) s : ElementsSelector R :=
  mkSelector (currOrder s) (myElement s) (myId s) (myClass s) (myAttr s) v
             (myPseudoElement s) (mySelector s) (myCombinator s) (mySelector2 s).

Definition set_myPseudoElement (v : option string) s : ElementsSelector R :=
  mkSelector (currOrder s) (myElement s) (myId s) (myClass s) (myAttr s) (myPseudoClass s)
             v (mySelector s) (myCombinator s) (mySelector2 s).

Definition set_mySelector (v : option string) s : ElementsSelector R :=
  mkSelector (currOrder s) (myElement s) (myId s) (myClass s) (myAttr s) (myPseudoClass s)
             (myPseudoElement s) v (myCombinator s) (mySelector2 s).

Definition set_myCombinator (v : option string) s : ElementsSelector R :=
  mkSelector (currOrder s) (myElement s) (myId s) (myClass s) (myAttr s) (myPseudoClass s)
             (myPseudoElement s) (mySelector s) v (mySelector2 s).

Definition set_mySelector2 (v : option string) s : ElementsSelector R :=
  mkSelector (currOrder s) (myElement s) (myId s) (myClass s) (myAttr s) (myPseudoClass s)
             (myPseudoElement s) (mySelector s) (myCombinator s) v.

End fields.

(** ** Computations on the store *)

Definition M (A : Type) : Type := heap -> heap * (exn + A).

Definition ret {A} (a : A) : M A := fun h => (h, inr a).

Definition throw {A} (e : exn) : M A := fun h => (h, inl e).

Definition bind {A B} (m : M A) (k : A -> M B) : M B :=
  fun h =>
    match m h with
    | (h', inl e) => (h', inl e)
    | (h', inr a) => k a h'
    end.

Notation "'let!' x ':=' m 'in' k" := (bind m (fun x => k))
  (at level 10, x name, m at level 100, k at level 200).
Notation "m ';;' k" := (bind m (fun _ => k))
  (at level 100, k at level 200, right associativity).

(** Reading [this] when it is expected to be a selector. *)
Definition get_this (this : loc) : M (ElementsSelector loc) :=
  fun h =>
    match h !! this with
    | Some (Selector s) => (h, inr s)
    | _ => (h, inl TypeError)
    end.

(** [this.f = v], with [f] one of the [set_] functions above. *)
Definition assign (this : loc)
    (f : ElementsSelector loc -> ElementsSelector loc) : M unit :=
  fun h =>
    match h !! this with
    | Some (Selector s) => (<[this := Selector (f s)]> h, inr tt)
    | _ => (h, inl TypeError)
    end.

(** [new ...] and [[]]: the object is put at a location not in use. *)
Definition alloc (o : object) : M loc :=
  fun h => let l := fresh (dom h) in (<[l := o]> h, inr l).

(** [a.push(v)] *)
Definition push (a : loc) (v : string) : M unit :=
  fun h =>
    match h !! a with
    | Some (Array items) => (<[a := Array (items ++ [v])]> h, inr tt)
    | _ => (h, inl TypeError)
    end.

(** [a.join(sep)] *)
Definition join (a : loc) (sep : string) : M string :=
  fun h =>
    match h !! a with
    | Some (Array items) => (h, inr (String.concat sep items))
    | _ => (h, inl TypeError)
    end.

(** Truthiness of a field that holds text or is undefined: only a
    non-empty string passes [if (this.f)]. *)
Definition truthy (v : option string) : bool :=
  match v with
  | Some s => negb (String.eqb s "")
  | None => false
  end.

(** An array reference is truthy, undefined is not. *)
Definition truthy_ref (v : option loc) : bool :=
  match v with
  | Some _ => true
  | None => false
  end.

(** String conversion inside a template literal. *)
Definition to_text (v : option string) : string :=
  match v with
  | Some s => s
  | None => "undefined"
  end.

(** ** class ElementsSelector *)

(** The keys of the table [parts] in [checkOrder]. *)
Inductive part :=
  | part_element
  | part_id
  | part_class
  | part_attr
  | part_pseudo_class
  | part_pseudo_element.

Definition parts (p : part) : Z :=
  match p with
  | part_element => 0
  | part_id => 1
  | part_class => 2
  | part_attr => 3
  | part_pseudo_class => 4
  | part_pseudo_element => 5
  end.

Module ElementsSelector.

(** [constructor() { this.currOrder = 0; }] *)
Definition new : M loc :=
  alloc (Selector (mkSelector 0 None None None None None None None None None)).

Definition checkOrder (this : loc) (p : part) : M unit :=
  let! s := get_this this in
  if (parts p <? currOrder s)%Z then throw OrderViolation
  else assign this (set_currOrder (parts p)).

Definition element (this : loc) (value : string) : M loc :=
  checkOrder this part_element;;
  let! s := get_this this in
  if truthy (myElement s) then throw DuplicateFragment
  else
    assign this (set_myElement (Some value));;
    ret this.

Definition id (this : loc) (value : string) : M loc :=
  checkOrder this part_id;;
  let! s := get_this this in
  if truthy (myId s) then throw DuplicateFragment
  else
    assign this (set_myId (Some value));;
    ret this.

Definition class (this : loc) (value : string) : M loc :=
  checkOrder this part_class;;
  let! s := get_this this in
  (if negb (truthy_ref (myClass s))
   then let! a := alloc (Array []) in assign this (set_myClass (Some a))
   else ret tt);;
  let! s := get_this this in
  match myClass s with
  | Some a => push a value
  | None => throw TypeError
  end;;
  ret this.

Definition attr (this : loc) (value : string) : M loc :=
  checkOrder this part_attr;;
  assign this (set_myAttr (Some value));;
  ret this.

Definition pseudoClass (this : loc) (value : string) : M loc :=
  checkOrder this part_pseudo_class;;
  let! s := get_this this in
  (if negb (truthy_ref (myPseudoClass s))
   then let! a := alloc (Array []) in assign this (set_myPseudoClass (Some a))
   else ret tt);;
  let! s := get_this this in
  match myPseudoClass s with
  | Some a => push a value
  | None => throw TypeError
  end;;
  ret this.

Definition pseudoElement (this : loc) (value : string) : M loc :=
  checkOrder this part_pseudo_element;;
  let! s := get_this this in
  if truthy (myPseudoElement s) then throw DuplicateFragment
  else
    assign this (set_myPseudoElement (Some value));;
    ret this.

(** The facade passes the two strings it obtained from [stringify]. *)
Definition combine (this : loc) (selector1 combinator selector2 : string) : M loc :=
  assign this (set_mySelector (Some selector1));;
  assign this (set_myCombinator (Some combinator));;
  assign this (set_mySelector2 (Some selector2));;
  ret this.

Definition stringify (this : loc) : M string :=
  let! s := get_this this in
  let result := "" in
  if truthy (mySelector s) && truthy (mySelector2 s) then
    ret (to_text (mySelector s) ++ " " ++ to_text (myCombinator s) ++ " "
           ++ to_text (mySelector2 s))
  else
    let result :=
      if truthy (myElement s) then result ++ to_text (myElement s) else result in
    let result :=
      if truthy (myId s) then result ++ "#" ++ to_text (myId s) else result in
    let! result :=
      match myClass s with
      | Some a => let! j := join a "." in ret (result ++ "." ++ j)
      | None => ret result
      end in
    let result :=
      if truthy (myAttr s) then result ++ "[" ++ to_text (myAttr s) ++ "]" else result in
    let! result :=
      match myPseudoClass s with
      | Some a => let! j := join a ":" in ret (result ++ ":" ++ j)
      | None => ret result
      end in
    let result :=
      if truthy (myPseudoElement s) then result ++ "::" ++ to_text (myPseudoElement s)
      else result in
    ret result.

End ElementsSelector.

(** ** const cssSelectorBuilder *)

Module cssSelectorBuilder.

Definition element (value : string) : M loc :=
  let! this := ElementsSelector.new in ElementsSelector.element this value.

Definition id (value : string) : M loc :=
  let! this := ElementsSelector.new in ElementsSelector.id this value.

Definition class (value : string) : M loc :=
  let! this := ElementsSelector.new in ElementsSelector.class this value.

Definition attr (value : string) : M loc :=
  let! this := ElementsSelector.new in ElementsSelector.attr this value.

Definition pseudoClass (value : string) : M loc :=
  let! this := ElementsSelector.new in ElementsSelector.pseudoClass this value.

Definition pseudoElement (value : string) : M loc :=
  let! this := ElementsSelector.new in ElementsSelector.pseudoElement this value.

Definition combine (selector1 : loc) (combinator : string) (selector2 : loc) : M loc :=
  let! selector1Str := ElementsSelector.stringify selector1 in
  let! selector2Str := ElementsSelector.stringify selector2 in
  let! this := ElementsSelector.new in
  ElementsSelector.combine this selector1Str combinator selector2Str.

End cssSelectorBuilder.


(** ** Clients of a builder *)

(** A call of one of the six fragment setters. *)
Inductive setter :=
  | Element (value : string)
  | Id (value : string)
  | Class (value : string)
  | Attr (value : string)
  | PseudoClass (value : string)
  | PseudoElement (value : string).

(** The key each setter passes to [checkOrder], and its rank. *)
Definition part_of (c : setter) : part :=
  match c with
  | Element _ => part_element
  | Id _ => part_id
  | Class _ => part_class
  | Attr _ => part_attr
  | PseudoClass _ => part_pseudo_class
  | PseudoElement _ => part_pseudo_element
  end.

Definition rank (c : setter) : Z := parts (part_of c).

Definition value_of (c : setter) : string :=
  match c with
  | Element v | Id v | Class v | Attr v | PseudoClass v | PseudoElement v => v
  end.

(** [this.c(value)] *)
Definition call (c : setter) (this : loc) : M loc :=
  match c with
  | Element v => ElementsSelector.element this v
  | Id v => ElementsSelector.id this v
  | Class v => ElementsSelector.class this v
  | Attr v => ElementsSelector.attr this v
  | PseudoClass v => ElementsSelector.pseudoClass this v
  | PseudoElement v => ElementsSelector.pseudoElement this v
  end.

(** The fluent chain [this.c1(v1).c2(v2)...]: each call is made on what the
    previous one returned, and the first throw ends the chain. *)
Fixpoint chain (cs : list setter) (this : loc) : M loc :=
  match cs with
  | [] => ret this
  | c :: cs => let! this := call c this in chain cs this
  end.

(** [new ElementsSelector().c1(v1).c2(v2)...]; with one call this is the
    facade method of that name. *)
Definition fluent (cs : list setter) : M loc :=
  let! this := ElementsSelector.new in chain cs this.

(** The facade method that starts a builder with [c]. *)
Definition start (c : setter) : M loc :=
  match c with
  | Element v => cssSelectorBuilder.element v
  | Id v => cssSelectorBuilder.id v
  | Class v => cssSelectorBuilder.class v
  | Attr v => cssSelectorBuilder.attr v
  | PseudoClass v => cssSelectorBuilder.pseudoClass v
  | PseudoElement v => cssSelectorBuilder.pseudoElement v
  end.

(** Every method of a builder that writes to it. *)
Inductive method :=
  | Fragment (c : setter)
  | Combine (selector1 combinator selector2 : string).

Definition invoke (m : method) (this : loc) : M loc :=
  match m with
  | Fragment c => call c this
  | Combine s1 c s2 => ElementsSelector.combine this s1 c s2
  end.

(** [try { this.m(...) } catch (e) {}]: what the store is after the call,
    whether it returned or threw. *)
Definition attempt (m : method) (this : loc) (h : heap) : heap :=
  fst (invoke m this h).

Definition attempts (ms : list method) (this : loc) (h : heap) : heap :=
  fold_left (fun h m => attempt m this h) ms h.

(** The same, on several builders. *)
Definition mutate (ms : list (loc * method)) (h : heap) : heap :=
  fold_left (fun h lm => attempt (snd lm) (fst lm) h) ms h.

(** The highest rank among the setters of a history of calls; 0, the
    initial [currOrder], when there is none. *)
Definition highest (ms : list method) : Z :=
  fold_right (fun m acc => match m with
                           | Fragment c => Z.max (rank c) acc
                           | Combine _ _ _ => acc
                           end) 0%Z ms.

(** ** What a client can see of a builder *)

Definition deref (h : heap) (r : option loc) : option (option (list string)) :=
  match r with
  | None => Some None
  | Some a =>
      match h !! a with
      | Some (Array items) => Some (Some items)
      | _ => None
      end
  end.

(** The fields of the builder at [l], with the arrays read out. *)
Definition observe (h : heap) (l : loc) : option (ElementsSelector (list string)) :=
  match h !! l with
  | Some (Selector s) =>
      match deref h (myClass s), deref h (myPseudoClass s) with
      | Some cl, Some pc =>
          Some (mkSelector (currOrder s) (myElement s) (myId s) cl (myAttr s) pc
                           (myPseudoElement s) (mySelector s) (myCombinator s)
                           (mySelector2 s))
      | _, _ => None
      end
  | _ => None
  end.

(** ** The methods on a snapshot

    The same methods read on the fields alone, arrays by value.  A method
    that throws leaves the assignments made before the [throw]. *)
Module Snapshot.

Abbreviation t := (ElementsSelector (list string)).

Definition new : t := mkSelector 0 None None None None None None None None None.

Definition checkOrder (p : part) (s : t) : t * option exn :=
  if (parts p <? currOrder s)%Z then (s, Some OrderViolation)
  else (set_currOrder (parts p) s, None).

Definition pushed (a : option (list string)) (v : string) : option (list string) :=
  Some (default [] a ++ [v])%list.

Definition call (c : setter) (s : t) : t * option exn :=
  match checkOrder (part_of c) s with
  | (s, Some e) => (s, Some e)
  | (s, None) =>
      match c with
      | Element v =>
          if truthy (myElement s) then (s, Some DuplicateFragment)
          else (set_myElement (Some v) s, None)
      | Id v =>
          if truthy (myId s) then (s, Some DuplicateFragment)
          else (set_myId (Some v) s, None)
      | Class v => (set_myClass (pushed (myClass s) v) s, None)
      | Attr v => (set_myAttr (Some v) s, None)
      | PseudoClass v => (set_myPseudoClass (pushed (myPseudoClass s) v) s, None)
      | PseudoElement v =>
          if truthy (myPseudoElement s) then (s, Some DuplicateFragment)
          else (set_myPseudoElement (Some v) s, None)
      end
  end.

Definition invoke (m : method) (s : t) : t * option exn :=
  match m with
  | Fragment c => call c s
  | Combine s1 c s2 =>
      (set_mySelector2 (Some s2) (set_myCombinator (Some c) (set_mySelector (Some s1) s)),
       None)
  end.

Definition stringify (s : t) : string :=
  if truthy (mySelector s) && truthy (mySelector2 s) then
    to_text (mySelector s) ++ " " ++ to_text (myCombinator s) ++ " "
      ++ to_text (mySelector2 s)
  else
    (if truthy (myElement s) then to_text (myElement s) else "")
    ++ (if truthy (myId s) then "#" ++ to_text (myId s) else "")
    ++ match myClass s with Some a => "." ++ String.concat "." a | None => "" end
    ++ (if truthy (myAttr s) then "[" ++ to_text (myAttr s) ++ "]" else "")
    ++ match myPseudoClass s with Some a => ":" ++ String.concat ":" a | None => "" end
    ++ (if truthy (myPseudoElement s) then "::" ++ to_text (myPseudoElement s) else "").

(** A fluent chain: the first throw ends it. *)
Fixpoint chain (cs : list setter) (s : t) : t * option exn :=
  match cs with
  | [] => (s, None)
  | c :: cs =>
      match call c s with
      | (s, Some e) => (s, Some e)
      | (s, None) => chain cs s
      end
  end.

(** Calls whose throws are caught. *)
Definition attempts (ms : list method) (s : t) : t :=
  fold_left (fun s m => fst (invoke m s)) ms s.

End Snapshot.

(** ** A builder and its arrays in the store *)

(** The two array fields of a record do not hold the same array. *)
Definition separate_arrays (s : ElementsSelector loc) : Prop :=
  forall a, myClass s = Some a -> myPseudoClass s <> Some a.

(** [v] is the record [s] with its arrays read in [h]. *)
Definition snapshot_of (h : heap) (s : ElementsSelector loc) (v : Snapshot.t) : Prop :=
  deref h (myClass s) = Some (myClass v) /\
  deref h (myPseudoClass s) = Some (myPseudoClass v) /\
  v = mkSelector (currOrder s) (myElement s) (myId s) (myClass v) (myAttr s)
                 (myPseudoClass v) (myPseudoElement s) (mySelector s)
                 (myCombinator s) (mySelector2 s).

(** [l] is a builder whose snapshot is [v]. *)
Definition owns (h : heap) (l : loc) (v : Snapshot.t) : Prop :=
  exists s, h !! l = Some (Selector s) /\ separate_arrays s /\ snapshot_of h s v.

(** ** The text of a sequence of setter calls *)

#[global] Instance part_eq_dec : EqDecision part.
Proof. solve_decision. Defined.

(** The values given to the setter of part [p], in call order. *)
Definition texts (p : part) (cs : list setter) : list string :=
  map value_of (filter (fun c => part_of c = p) cs).

(** A fragment that was set, between its marks; nothing when it was not. *)
Definition fragment (before after : string) (v : option string) : string :=
  match v with
  | Some x => before ++ x ++ after
  | None => ""
  end.

(** The fragments of a repeatable part, each one after the mark [sep];
    nothing when there is none. *)
Definition joined (sep : string) (vs : list string) : string :=
  match vs with
  | [] => ""
  | _ => sep ++ String.concat sep vs
  end.

(** The text that the calls [cs] are said to give: every part that was set
    contributes, whatever its value. *)
Definition stated_text (cs : list setter) : string :=
  fragment "" "" (last (texts part_element cs))
  ++ fragment "#" "" (last (texts part_id cs))
  ++ joined "." (texts part_class cs)
  ++ fragment "[" "]" (last (texts part_attr cs))
  ++ joined ":" (texts part_pseudo_class cs)
  ++ fragment "::" "" (last (texts part_pseudo_element cs)).

(** A value that passes [if (this.f)]: set, and not the empty string. *)
Definition nonempty (v : option string) : option string :=
  if truthy v then v else None.

(** The same text with the element, id, attribute and pseudo-element parts
    contributing only when their value is not empty. *)
Definition selector_text (cs : list setter) : string :=
  fragment "" "" (nonempty (last (texts part_element cs)))
  ++ fragment "#" "" (nonempty (last (texts part_id cs)))
  ++ joined "." (texts part_class cs)
  ++ fragment "[" "]" (nonempty (last (texts part_attr cs)))
  ++ joined ":" (texts part_pseudo_class cs)
  ++ fragment "::" "" (nonempty (last (texts part_pseudo_element cs))).

(** Each call has a rank at least [n] and at least that of the call before
    it. *)
Fixpoint in_order_from (n : Z) (cs : list setter) : bool :=
  match cs with
  | [] => true
  | c :: cs => (n <=? rank c)%Z && in_order_from (rank c) cs
  end.

(** The calls respect the rank order element, id, class, attr,
    pseudo-class, pseudo-element (0 is the lowest rank). *)
Definition respects_order (cs : list setter) : Prop :=
  in_order_from 0 cs = true.

(** Element, id and pseudo-element are set at most once. *)
Definition singletons_once (cs : list setter) : Prop :=
  length (texts part_element cs) <= 1 /\
  length (texts part_id cs) <= 1 /\
  length (texts part_pseudo_element cs) <= 1.

(** The parts that may occur once. *)
Definition singleton (p : part) : bool :=
  match p with
  | part_element | part_id | part_pseudo_element => true
  | _ => false
  end.

(** The text field a part is stored in ([class] and [pseudoClass] have
    arrays instead). *)
Definition stored {R} (p : part) (s : ElementsSelector R) : option string :=
  match p with
  | part_element => myElement s
  | part_id => myId s
  | part_attr => myAttr s
  | part_pseudo_element => myPseudoElement s
  | part_class | part_pseudo_class => None
  end.

(** ** Where a chain of calls leaves a builder *)

(** A text field after assignments of [vs]. *)
Definition overwritten (old : option string) (vs : list string) : option string :=
  match last vs with
  | Some x => Some x
  | None => old
  end.

(** An array field after pushes of [vs]. *)
Definition appended (old : option (list string)) (vs : list string)
    : option (list string) :=
  match vs with
  | [] => old
  | _ => Some (default [] old ++ vs)%list
  end.

(** The snapshot after the calls [cs], when none of them throws. *)
Definition final (v : Snapshot.t) (cs : list setter) : Snapshot.t :=
  mkSelector
    (from_option rank (currOrder v) (last cs))
    (overwritten (myElement v) (texts part_element cs))
    (overwritten (myId v) (texts part_id cs))
    (appended (myClass v) (texts part_class cs))
    (overwritten (myAttr v) (texts part_attr cs))
    (appended (myPseudoClass v) (texts part_pseudo_class cs))
    (overwritten (myPseudoElement v) (texts part_pseudo_element cs))
    (mySelector v) (myCombinator v) (mySelector2 v).

(** The assignments [vs] to a field that may be set once do not throw. *)
Definition free (old : option string) (vs : list string) : Prop :=
  match vs with
  | [] => True
  | [_] => truthy old = false
  | _ => False
  end.

(** ** The stores a client can bring about *)

Definition is_builder (h : heap) (l : loc) : Prop :=
  exists s, h !! l = Some (Selector s).

(** What a client can ask for: a facade method that starts a builder, the
    facade's [combine], a method of a builder, [stringify]. *)
Inductive request :=
  | Start (c : setter)
  | Join (a : loc) (combinator : string) (b : loc)
  | On (l : loc) (m : method)
  | Stringify (l : loc).

Definition perform (r : request) (h : heap) : heap :=
  match r with
  | Start c => fst (start c h)
  | Join a c b => fst (cssSelectorBuilder.combine a c b h)
  | On l m => attempt m l h
  | Stringify l => fst (ElementsSelector.stringify l h)
  end.

(** The stores a client can bring about, starting with no object. *)
Inductive reachable : heap -> Prop :=
  | reachable_initial : reachable ∅
  | reachable_step h r : reachable h -> reachable (perform r h).

(** The builder at [l] looks the same in [h'] as in [h]: same fields, same
    arrays, same [stringify()]. *)
Definition unchanged (h h' : heap) (l : loc) : Prop :=
  observe h' l = observe h l /\
  snd (ElementsSelector.stringify l h') = snd (ElementsSelector.stringify l h).

(** What the builder made by the facade's [combine] holds. *)
Definition combined (s1 c s2 : string) : ElementsSelector loc :=
  mkSelector 0 None None None None None None (Some s1) (Some c) (Some s2).

(** ** Properties of computations and stores used in the proofs *)

(** [m] does not write. *)
Definition read_only {A} (m : M A) : Prop := forall h, fst (m h) = h.

(** [m] maintains the property [P] of the store. *)
Definition keeps {A} (P : heap -> Prop) (m : M A) : Prop :=
  forall h, P h -> P (fst (m h)).

(** The record of the builder at [k] is [s]. *)
Definition holds (k : loc) (s : ElementsSelector loc) (h : heap) : Prop :=
  h !! k = Some (Selector s).

(** [k] is an array of the builder at [l]. *)
Definition refers (h : heap) (l k : loc) : Prop :=
  exists s, h !! l = Some (Selector s) /\ (myClass s = Some k \/ myPseudoClass s = Some k).

(** From [h] to [h'] only the builder at [l], its arrays and locations that
    were not in use have been written, an array the builder has in [h'] and
    not in [h] is new, and no other builder has appeared. *)
Definition local_step (h : heap) (l : loc) (h' : heap) : Prop :=
  (forall k, k <> l -> ~ refers h l k -> is_Some (h !! k) -> h' !! k = h !! k) /\
  (forall k, refers h' l k -> refers h l k \/ h !! k = None) /\
  (forall k s, k <> l -> h' !! k = Some (Selector s) -> h !! k = Some (Selector s)).

(** Every builder has its arrays, and no array belongs to two builders. *)
Definition wf (h : heap) : Prop :=
  (forall l s, h !! l = Some (Selector s) -> exists v, owns h l v) /\
  (forall l1 l2 k, l1 <> l2 -> refers h l1 k -> refers h l2 k -> False).

(** ** What holds of every builder a client can bring about *)

(** [currOrder] is one of the six ranks, a fragment that is set has a rank
    of at most [currOrder], and an array that exists has an item. *)
Definition consistent (v : Snapshot.t) : Prop :=
  (0 <= currOrder v <= 5)%Z /\
  (forall p, stored p v <> None -> (parts p <= currOrder v)%Z) /\
  (myClass v <> None -> (parts part_class <= currOrder v)%Z) /\
  (myPseudoClass v <> None -> (parts part_pseudo_class <= currOrder v)%Z) /\
  myClass v <> Some [] /\
  myPseudoClass v <> Some [].

(** What a setter call does on a builder seen as [v]: the ordering error,
    else the duplication error, else it returns. *)
Definition outcome (c : setter) (v : Snapshot.t) : option exn :=
  if (rank c <? currOrder v)%Z then Some OrderViolation
  else if singleton (part_of c) && truthy (stored (part_of c) v)
       then Some DuplicateFragment
       else None.

(** Every value but the last is the empty string. *)
Fixpoint empty_but_last (vs : list string) : bool :=
  match vs with
  | [] => true
  | x :: vs' =>
      match vs' with
      | [] => true
      | _ => String.eqb x "" && empty_but_last vs'
      end
  end.

(** The assignments [vs] to a field that may be set once do not throw,
    whatever their number. *)
Fixpoint assignable (old : option string) (vs : list string) : Prop :=
  match vs with
  | [] => True
  | x :: vs' => truthy old = false /\ assignable (Some x) vs'
  end.

(** [new ElementsSelector().c1(v1)...stringify()] *)
Definition text_of (cs : list setter) : M string :=
  let! b := fluent cs in ElementsSelector.stringify b.

(** The snapshot of the builder that the facade's [combine] makes. *)
Definition combined_snapshot (s1 c s2 : string) : Snapshot.t :=
  mkSelector 0 None None None None None None (Some s1) (Some c) (Some s2).

(** * Proofs *)

(** ** The examples given in the source *)

Example builder_example_classes :
  snd ((let! b := cssSelectorBuilder.id "main" in
        let! b := ElementsSelector.class b "container" in
        let! b := ElementsSelector.class b "editable" in
        ElementsSelector.stringify b) ∅)
  = inr "#main.container.editable".
Proof. vm_compute. reflexivity. Qed.

Example builder_example_combine :
  snd ((let! d := fluent [Element "div"; Id "main"; Class "container";
                          Class "draggable"] in
        let! t := fluent [Element "table"; Id "data"] in
        let! r := fluent [Element "tr"; PseudoClass "nth-of-type(even)"] in
        let! c := fluent [Element "td"; PseudoClass "nth-of-type(even)"] in
        let! rc := cssSelectorBuilder.combine r " " c in
        let! trc := cssSelectorBuilder.combine t "~" rc in
        let! all := cssSelectorBuilder.combine d "+" trc in
        ElementsSelector.stringify all) ∅)
  = inr "div#main.container.draggable + table#data ~ tr:nth-of-type(even)   td:nth-of-type(even)".
Proof. vm_compute. reflexivity. Qed.

Example builder_example_twice :
  snd (fluent [Id "a"; Id "b"] ∅) = inl DuplicateFragment.
Proof. vm_compute. reflexivity. Qed.

Example builder_example_order :
  snd (fluent [Element "div"; Id "main"; Class "x"; Element "span"] ∅)
  = inl OrderViolation.
Proof. vm_compute. reflexivity. Qed.

Lemma new_run h :
  ElementsSelector.new h =
    (<[fresh (dom h) := Selector (mkSelector 0 None None None None None None None None None)]> h,
     inr (fresh (dom h))).
Proof. reflexivity. Qed.

Lemma start_unfold c h :
  start c h = (let! this := ElementsSelector.new in call c this) h.
Proof. destruct c; reflexivity. Qed.

(** A chain of one call on a new builder is the facade method. *)
Lemma fluent_start c h : fluent [c] h = start c h.
Proof.
  rewrite start_unfold. unfold fluent, bind. rewrite new_run. simpl.
  unfold bind, ret. by destruct (call c _ _) as [h2 [e|l]].
Qed.

(** ** The store *)

Lemma observe_snapshot h l v :
  observe h l = Some v <-> exists s, h !! l = Some (Selector s) /\ snapshot_of h s v.
Proof.
  unfold observe, snapshot_of. split.
  - destruct (h !! l) as [[s|]|] eqn:E; try discriminate.
    destruct (deref h (myClass s)) as [cl|] eqn:E1; try discriminate.
    destruct (deref h (myPseudoClass s)) as [pc|] eqn:E2; try discriminate.
    intros [= <-]. exists s. simpl. auto.
  - intros (s & -> & -> & -> & ->). reflexivity.
Qed.

Lemma owns_observe h l v : owns h l v -> observe h l = Some v.
Proof. intros (s & ? & ? & ?). apply observe_snapshot. eauto. Qed.

Lemma deref_array h r o : deref h r = Some o ->
  match r with
  | Some a => exists items, h !! a = Some (Array items) /\ o = Some items
  | None => o = None
  end.
Proof.
  destruct r as [a|]; simpl.
  - destruct (h !! a) as [[|items]|]; try discriminate. intros [= <-]. eauto.
  - congruence.
Qed.

(** Writing a selector record over a selector record changes no array. *)
Lemma deref_insert_selector h l s0 s' r :
  h !! l = Some (Selector s0) ->
  deref (<[l := Selector s']> h) r = deref h r.
Proof.
  intros Hl. destruct r as [a|]; simpl; [|done].
  destruct (decide (l = a)) as [->|Hne].
  - by rewrite lookup_insert_eq, Hl.
  - by rewrite lookup_insert_ne.
Qed.

(** Nor does writing an array that the field does not refer to. *)
Lemma deref_insert_other h a items r :
  r <> Some a -> deref (<[a := Array items]> h) r = deref h r.
Proof.
  intros Hr. destruct r as [b|]; simpl; [|done].
  rewrite lookup_insert_ne; [done|congruence].
Qed.

Lemma fresh_unused (h : heap) : h !! fresh (dom h) = None.
Proof. apply not_elem_of_dom. apply is_fresh. Qed.

(** ** The methods, run on a store where [this] is a builder *)

Ltac run :=
  unfold bind, get_this, assign, throw, ret, alloc, push, join; simpl.

Lemma checkOrder_run h this s p :
  h !! this = Some (Selector s) ->
  ElementsSelector.checkOrder this p h =
    if (parts p <? currOrder s)%Z then (h, inl OrderViolation)
    else (<[this := Selector (set_currOrder (parts p) s)]> h, inr tt).
Proof.
  intros Hs. unfold ElementsSelector.checkOrder. run. rewrite Hs.
  destruct (parts p <? currOrder s)%Z; run; [done|]. by rewrite Hs.
Qed.

Lemma element_run h this s value :
  h !! this = Some (Selector s) ->
  ElementsSelector.element this value h =
    if (parts part_element <? currOrder s)%Z then (h, inl OrderViolation)
    else if truthy (myElement s)
    then (<[this := Selector (set_currOrder 0 s)]> h, inl DuplicateFragment)
    else (<[this := Selector (set_myElement (Some value) (set_currOrder 0 s))]> h,
          inr this).
Proof.
  intros Hs. unfold ElementsSelector.element, bind at 1.
  rewrite (checkOrder_run _ _ _ _ Hs).
  destruct (parts part_element <? currOrder s)%Z; [done|].
  run. rewrite lookup_insert_eq. simpl.
  destruct (truthy (myElement s)); run; [done|].
  by rewrite lookup_insert_eq, insert_insert_eq.
Qed.

Lemma id_run h this s value :
  h !! this = Some (Selector s) ->
  ElementsSelector.id this value h =
    if (parts part_id <? currOrder s)%Z then (h, inl OrderViolation)
    else if truthy (myId s)
    then (<[this := Selector (set_currOrder 1 s)]> h, inl DuplicateFragment)
    else (<[this := Selector (set_myId (Some value) (set_currOrder 1 s))]> h,
          inr this).
Proof.
  intros Hs. unfold ElementsSelector.id, bind at 1.
  rewrite (checkOrder_run _ _ _ _ Hs).
  destruct (parts part_id <? currOrder s)%Z; [done|].
  run. rewrite lookup_insert_eq. simpl.
  destruct (truthy (myId s)); run; [done|].
  by rewrite lookup_insert_eq, insert_insert_eq.
Qed.

Lemma pseudoElement_run h this s value :
  h !! this = Some (Selector s) ->
  ElementsSelector.pseudoElement this value h =
    if (parts part_pseudo_element <? currOrder s)%Z then (h, inl OrderViolation)
    else if truthy (myPseudoElement s)
    then (<[this := Selector (set_currOrder 5 s)]> h, inl DuplicateFragment)
    else (<[this := Selector (set_myPseudoElement (Some value) (set_currOrder 5 s))]> h,
          inr this).
Proof.
  intros Hs. unfold ElementsSelector.pseudoElement, bind at 1.
  rewrite (checkOrder_run _ _ _ _ Hs).
  destruct (parts part_pseudo_element <? currOrder s)%Z; [done|].
  run. rewrite lookup_insert_eq. simpl.
  destruct (truthy (myPseudoElement s)); run; [done|].
  by rewrite lookup_insert_eq, insert_insert_eq.
Qed.

Lemma attr_run h this s value :
  h !! this = Some (Selector s) ->
  ElementsSelector.attr this value h =
    if (parts part_attr <? currOrder s)%Z then (h, inl OrderViolation)
    else (<[this := Selector (set_myAttr (Some value) (set_currOrder 3 s))]> h,
          inr this).
Proof.
  intros Hs. unfold ElementsSelector.attr, bind at 1.
  rewrite (checkOrder_run _ _ _ _ Hs).
  destruct (parts part_attr <? currOrder s)%Z; [done|].
  run. by rewrite lookup_insert_eq, insert_insert_eq.
Qed.

Lemma combine_run h this s s1 c s2 :
  h !! this = Some (Selector s) ->
  ElementsSelector.combine this s1 c s2 h =
    (<[this := Selector (set_mySelector2 (Some s2)
                           (set_myCombinator (Some c)
                              (set_mySelector (Some s1) s)))]> h, inr this).
Proof.
  intros Hs. unfold ElementsSelector.combine. run. rewrite Hs.
  by rewrite !lookup_insert_eq, !insert_insert_eq.
Qed.

Lemma dom_insert_selector (h : heap) l s0 s' :
  h !! l = Some (Selector s0) -> dom (<[l := Selector s']> h) = dom h.
Proof.
  intros Hl. rewrite dom_insert_L.
  assert (l ∈ dom h) as Hin by (apply elem_of_dom; eauto).
  apply set_eq. intros k. rewrite elem_of_union, elem_of_singleton.
  split; [intros [->|?]; done|auto].
Qed.

(** [class] either pushes to the array the builder has or first makes one,
    at a location not in use; both cases write the same two objects. *)
Lemma class_run h this s cl value :
  h !! this = Some (Selector s) ->
  deref h (myClass s) = Some cl ->
  ElementsSelector.class this value h =
    if (parts part_class <? currOrder s)%Z then (h, inl OrderViolation)
    else
      let a := default (fresh (dom h)) (myClass s) in
      (<[a := Array (default [] cl ++ [value])]>
         (<[this := Selector (set_myClass (Some a) (set_currOrder 2 s))]> h),
       inr this).
Proof.
  intros Hs Hcl. unfold ElementsSelector.class, bind at 1.
  rewrite (checkOrder_run _ _ _ _ Hs).
  destruct (parts part_class <? currOrder s)%Z; [done|].
  apply deref_array in Hcl.
  destruct s as [o e i [a|] at_ pc pe s1 c s2]; simpl in *.
  - destruct Hcl as (items & Ha & ->). simpl.
    assert (this <> a) by congruence.
    run. rewrite lookup_insert_eq. simpl. rewrite lookup_insert_eq. simpl.
    rewrite lookup_insert_ne, Ha by done. done.
  - subst cl. run. rewrite lookup_insert_eq. simpl.
    rewrite (dom_insert_selector _ _ _ _ Hs).
    pose proof (fresh_unused h) as Hf. set (a := fresh (dom h)) in *.
    assert (this <> a) by congruence.
    rewrite lookup_insert_ne, lookup_insert_eq by done. simpl.
    rewrite lookup_insert_eq. simpl.
    rewrite lookup_insert_ne, lookup_insert_eq by done. simpl.
    f_equal. apply map_eq. intros k.
    destruct (decide (k = a)) as [->|]; [by rewrite !lookup_insert_eq|].
    rewrite (lookup_insert_ne _ a k) by done.
    rewrite (lookup_insert_ne _ a k) by done.
    destruct (decide (k = this)) as [->|]; [by rewrite !lookup_insert_eq|].
    rewrite !(lookup_insert_ne _ this k) by done.
    rewrite (lookup_insert_ne _ a k) by done.
    rewrite !(lookup_insert_ne _ this k) by done. done.
Qed.

Lemma pseudoClass_run h this s pc value :
  h !! this = Some (Selector s) ->
  deref h (myPseudoClass s) = Some pc ->
  ElementsSelector.pseudoClass this value h =
    if (parts part_pseudo_class <? currOrder s)%Z then (h, inl OrderViolation)
    else
      let a := default (fresh (dom h)) (myPseudoClass s) in
      (<[a := Array (default [] pc ++ [value])]>
         (<[this := Selector (set_myPseudoClass (Some a) (set_currOrder 4 s))]> h),
       inr this).
Proof.
  intros Hs Hpc. unfold ElementsSelector.pseudoClass, bind at 1.
  rewrite (checkOrder_run _ _ _ _ Hs).
  destruct (parts part_pseudo_class <? currOrder s)%Z; [done|].
  apply deref_array in Hpc.
  destruct s as [o e i cl at_ [a|] pe s1 c s2]; simpl in *.
  - destruct Hpc as (items & Ha & ->). simpl.
    assert (this <> a) by congruence.
    run. rewrite lookup_insert_eq. simpl. rewrite lookup_insert_eq. simpl.
    rewrite lookup_insert_ne, Ha by done. done.
  - subst pc. run. rewrite lookup_insert_eq. simpl.
    rewrite (dom_insert_selector _ _ _ _ Hs).
    pose proof (fresh_unused h) as Hf. set (a := fresh (dom h)) in *.
    assert (this <> a) by congruence.
    rewrite lookup_insert_ne, lookup_insert_eq by done. simpl.
    rewrite lookup_insert_eq. simpl.
    rewrite lookup_insert_ne, lookup_insert_eq by done. simpl.
    f_equal. apply map_eq. intros k.
    destruct (decide (k = a)) as [->|]; [by rewrite !lookup_insert_eq|].
    rewrite (lookup_insert_ne _ a k) by done.
    rewrite (lookup_insert_ne _ a k) by done.
    destruct (decide (k = this)) as [->|]; [by rewrite !lookup_insert_eq|].
    rewrite !(lookup_insert_ne _ this k) by done.
    rewrite (lookup_insert_ne _ a k) by done.
    rewrite !(lookup_insert_ne _ this k) by done. done.
Qed.

(** ** Text *)

Lemma append_empty_l (a : string) : "" ++ a = a.
Proof. reflexivity. Qed.

Lemma append_cons x (a b : string) : String x a ++ b = String x (a ++ b).
Proof. reflexivity. Qed.

Lemma append_assoc (a b c : string) : (a ++ b) ++ c = a ++ (b ++ c).
Proof.
  induction a as [|x a IH]; [done|]. by rewrite !append_cons, IH.
Qed.

Lemma append_empty_r (a : string) : a ++ "" = a.
Proof.
  induction a as [|x a IH]; [done|]. by rewrite append_cons, IH.
Qed.

(** ** Computations that only read *)

Lemma read_only_ret {A} (a : A) : read_only (ret a).
Proof. done. Qed.

Lemma read_only_bind {A B} (m : M A) (k : A -> M B) :
  read_only m -> (forall a, read_only (k a)) -> read_only (bind m k).
Proof.
  intros Hm Hk h. unfold bind. specialize (Hm h).
  destruct (m h) as [h' [e|a]]; simpl in *; subst; [done|apply Hk].
Qed.

Lemma read_only_get_this l : read_only (get_this l).
Proof. intros h. unfold get_this. by destruct (h !! l) as [[|]|]. Qed.

Lemma read_only_join a sep : read_only (join a sep).
Proof. intros h. unfold join. by destruct (h !! a) as [[|]|]. Qed.

Lemma stringify_read_only this : read_only (ElementsSelector.stringify this).
Proof.
  unfold ElementsSelector.stringify.
  apply read_only_bind; [apply read_only_get_this|]. intros s.
  destruct (truthy (mySelector s) && truthy (mySelector2 s)); [apply read_only_ret|].
  apply read_only_bind.
  { destruct (myClass s); [|apply read_only_ret].
    apply read_only_bind; [apply read_only_join|]. intros; apply read_only_ret. }
  intros r1. apply read_only_bind; [|intros; apply read_only_ret].
  destruct (myPseudoClass s); [|apply read_only_ret].
  apply read_only_bind; [apply read_only_join|]. intros; apply read_only_ret.
Qed.

(** [stringify] returns what the snapshot's [stringify] gives. *)
Lemma stringify_run h this s v :
  h !! this = Some (Selector s) ->
  snapshot_of h s v ->
  ElementsSelector.stringify this h = (h, inr (Snapshot.stringify v)).
Proof.
  intros Hs (Hcl & Hpc & ->).
  unfold ElementsSelector.stringify, Snapshot.stringify. run. rewrite Hs. simpl.
  destruct (truthy (mySelector s) && truthy (mySelector2 s)); [done|].
  apply deref_array in Hcl, Hpc.
  destruct (myClass s) as [a|], (myPseudoClass s) as [b|]; simpl in *;
    repeat match goal with
           | H : exists _, _ |- _ => destruct H as (? & ? & ->)
           | H : _ = None |- _ => rewrite H
           end; simpl;
    repeat match goal with H : h !! _ = Some (Array _) |- _ => rewrite H; clear H end;
    simpl;
    destruct (truthy (myElement s)), (truthy (myId s)), (truthy (myAttr s)),
      (truthy (myPseudoElement s)); simpl;
    rewrite ?append_empty_l, ?append_assoc, ?append_empty_r; reflexivity.
Qed.

Lemma stringify_owns h this v :
  owns h this v ->
  ElementsSelector.stringify this h = (h, inr (Snapshot.stringify v)).
Proof. intros (s & Hs & _ & Hv). eauto using stringify_run. Qed.

(** ** What a method call does to the store *)

Lemma local_step_refl h l : local_step h l h.
Proof. repeat split; auto. Qed.

Lemma local_step_fields h l s s' :
  h !! l = Some (Selector s) ->
  myClass s' = myClass s -> myPseudoClass s' = myPseudoClass s ->
  local_step h l (<[l := Selector s']> h).
Proof.
  intros Hs Hc Hp. split; [|split].
  - intros k Hk _ _. by rewrite lookup_insert_ne.
  - intros k (s0 & Hs0 & Hr). rewrite lookup_insert_eq in Hs0.
    injection Hs0 as <-. left. exists s. rewrite <- Hc, <- Hp. auto.
  - intros k s0 Hk. by rewrite lookup_insert_ne.
Qed.

Lemma owns_fields h l s s' v v' :
  h !! l = Some (Selector s) -> separate_arrays s -> snapshot_of h s v ->
  myClass s' = myClass s -> myPseudoClass s' = myPseudoClass s ->
  v' = mkSelector (currOrder s') (myElement s') (myId s') (myClass v) (myAttr s')
         (myPseudoClass v) (myPseudoElement s') (mySelector s') (myCombinator s')
         (mySelector2 s') ->
  owns (<[l := Selector s']> h) l v'.
Proof.
  intros Hs Hsep (Hcl & Hpc & Hv) Hc Hp ->. exists s'.
  split; [apply lookup_insert_eq|]. split.
  - unfold separate_arrays. rewrite Hc, Hp. apply Hsep.
  - unfold snapshot_of. simpl.
    rewrite !(deref_insert_selector _ _ _ _ _ Hs), Hc, Hp. auto.
Qed.

Lemma array_target h s o :
  deref h (myClass s) = Some o ->
  let a := default (fresh (dom h)) (myClass s) in
  (myClass s = Some a \/ (myClass s = None /\ h !! a = None)).
Proof.
  intros Ho. destruct (myClass s) as [a|]; simpl; [auto|].
  right. split; [done|apply fresh_unused].
Qed.

Lemma pseudo_array_target h s o :
  deref h (myPseudoClass s) = Some o ->
  let a := default (fresh (dom h)) (myPseudoClass s) in
  (myPseudoClass s = Some a \/ (myPseudoClass s = None /\ h !! a = None)).
Proof.
  intros Ho. destruct (myPseudoClass s) as [a|]; simpl; [auto|].
  right. split; [done|apply fresh_unused].
Qed.

Lemma deref_not_unused h r o a : deref h r = Some o -> h !! a = None -> r <> Some a.
Proof.
  intros H Ha ->. apply deref_array in H as (items & H & _). congruence.
Qed.

Lemma class_effect h l s v value :
  h !! l = Some (Selector s) -> separate_arrays s -> snapshot_of h s v ->
  (parts part_class <? currOrder s)%Z = false ->
  let a := default (fresh (dom h)) (myClass s) in
  let h' := <[a := Array (default [] (myClass v) ++ [value])]>
              (<[l := Selector (set_myClass (Some a) (set_currOrder 2 s))]> h) in
  owns h' l (set_myClass (Snapshot.pushed (myClass v) value) (set_currOrder 2 v)) /\
  local_step h l h'.
Proof.
  intros Hs Hsep (Hcl & Hpc & Hv) _ a h'.
  pose proof (array_target _ _ _ Hcl) as Ha. fold a in Ha.
  assert (l <> a) as Hla.
  { intros <-. destruct Ha as [Ha|[_ Ha]]; [|congruence].
    rewrite Ha in Hcl. simpl in Hcl. by rewrite Hs in Hcl. }
  assert (myPseudoClass s <> Some a) as Hpa.
  { destruct Ha as [Ha|[_ Ha]]; [by apply Hsep|by eapply deref_not_unused]. }
  split.
  - exists (set_myClass (Some a) (set_currOrder 2 s)). split; [|split].
    + unfold h'. by rewrite lookup_insert_ne, lookup_insert_eq.
    + intros b [= <-]. done.
    + unfold snapshot_of, h'. simpl. rewrite lookup_insert_eq. split; [done|].
      rewrite deref_insert_other, (deref_insert_selector _ _ _ _ _ Hs) by done.
      split; [done|]. rewrite Hv. done.
  - split; [|split].
    + intros k Hkl Hk Hin. unfold h'.
      assert (k <> a).
      { intros ->. destruct Ha as [Ha|[_ Ha]].
        - apply Hk. exists s. auto.
        - rewrite Ha in Hin. by destruct Hin. }
      by rewrite !lookup_insert_ne.
    + intros k (s' & Hs' & Hr). unfold h' in Hs'.
      rewrite lookup_insert_ne, lookup_insert_eq in Hs' by done.
      injection Hs' as <-. simpl in Hr. destruct Hr as [[= <-]|Hr].
      * destruct Ha as [Ha|[_ Ha]]; [left; exists s; auto|auto].
      * left. exists s. auto.
    + intros k s0 Hk. unfold h'. destruct (decide (k = a)) as [->|Hka].
      * by rewrite lookup_insert_eq.
      * by rewrite !lookup_insert_ne.
Qed.

Lemma pseudoClass_effect h l s v value :
  h !! l = Some (Selector s) -> separate_arrays s -> snapshot_of h s v ->
  (parts part_pseudo_class <? currOrder s)%Z = false ->
  let a := default (fresh (dom h)) (myPseudoClass s) in
  let h' := <[a := Array (default [] (myPseudoClass v) ++ [value])]>
              (<[l := Selector (set_myPseudoClass (Some a) (set_currOrder 4 s))]> h) in
  owns h' l (set_myPseudoClass (Snapshot.pushed (myPseudoClass v) value)
               (set_currOrder 4 v)) /\
  local_step h l h'.
Proof.
  intros Hs Hsep (Hcl & Hpc & Hv) _ a h'.
  pose proof (pseudo_array_target _ _ _ Hpc) as Ha. fold a in Ha.
  assert (l <> a) as Hla.
  { intros <-. destruct Ha as [Ha|[_ Ha]]; [|congruence].
    rewrite Ha in Hpc. simpl in Hpc. by rewrite Hs in Hpc. }
  assert (myClass s <> Some a) as Hca.
  { destruct Ha as [Ha|[_ Ha]]; [|by eapply deref_not_unused].
    intros Hc. by apply (Hsep a). }
  split.
  - exists (set_myPseudoClass (Some a) (set_currOrder 4 s)). split; [|split].
    + unfold h'. by rewrite lookup_insert_ne, lookup_insert_eq.
    + intros b Hb [= <-]. done.
    + unfold snapshot_of, h'. simpl. rewrite lookup_insert_eq.
      rewrite deref_insert_other, (deref_insert_selector _ _ _ _ _ Hs) by done.
      split; [done|]. split; [done|]. rewrite Hv. done.
  - split; [|split].
    + intros k Hkl Hk Hin. unfold h'.
      assert (k <> a).
      { intros ->. destruct Ha as [Ha|[_ Ha]].
        - apply Hk. exists s. auto.
        - rewrite Ha in Hin. by destruct Hin. }
      by rewrite !lookup_insert_ne.
    + intros k (s' & Hs' & Hr). unfold h' in Hs'.
      rewrite lookup_insert_ne, lookup_insert_eq in Hs' by done.
      injection Hs' as <-. simpl in Hr. destruct Hr as [Hr|[= <-]].
      * left. exists s. auto.
      * destruct Ha as [Ha|[_ Ha]]; [left; exists s; auto|auto].
    + intros k s0 Hk. unfold h'. destruct (decide (k = a)) as [->|Hka].
      * by rewrite lookup_insert_eq.
      * by rewrite !lookup_insert_ne.
Qed.

(** A method call on a builder does to the store what the same call does
    to the snapshot, returns [this] unless it throws, and writes only to
    the builder, its arrays and unused locations. *)
Lemma invoke_effect h l v m :
  owns h l v ->
  snd (invoke m l h) =
    match snd (Snapshot.invoke m v) with Some e => inl e | None => inr l end /\
  owns (fst (invoke m l h)) l (fst (Snapshot.invoke m v)) /\
  local_step h l (fst (invoke m l h)).
Proof.
  intros (s & Hs & Hsep & Hsnap).
  assert (owns h l v) as Hown by (exists s; auto).
  pose proof Hsnap as (Hcl & Hpc & Hv).
  destruct v as [o e i cl at_ pc pe v1 vc v2]; simpl in *.
  injection Hv; intros; subst; clear Hv.
  destruct m as [[value|value|value|value|value|value]|s1 c s2]; simpl;
    unfold Snapshot.call, Snapshot.checkOrder; simpl.
  - rewrite (element_run _ _ _ _ Hs). simpl.
    destruct (0 <? currOrder s)%Z; simpl; [by auto using local_step_refl|].
    destruct (truthy (myElement s)); simpl;
      (split; [done|split; [by eapply owns_fields|by eapply local_step_fields]]).
  - rewrite (id_run _ _ _ _ Hs). simpl.
    destruct (1 <? currOrder s)%Z; simpl; [by auto using local_step_refl|].
    destruct (truthy (myId s)); simpl;
      (split; [done|split; [by eapply owns_fields|by eapply local_step_fields]]).
  - rewrite (class_run _ _ _ _ _ Hs Hcl).
    destruct (parts part_class <? currOrder s)%Z eqn:Ho; simpl in *; rewrite Ho; simpl;
      [by auto using local_step_refl|].
    split; [done|]. exact (class_effect _ _ _ _ value Hs Hsep Hsnap Ho).
  - rewrite (attr_run _ _ _ _ Hs). simpl.
    destruct (3 <? currOrder s)%Z; simpl; [by auto using local_step_refl|].
    split; [done|split; [by eapply owns_fields|by eapply local_step_fields]].
  - rewrite (pseudoClass_run _ _ _ _ _ Hs Hpc).
    destruct (parts part_pseudo_class <? currOrder s)%Z eqn:Ho; simpl in *; rewrite Ho;
      simpl; [by auto using local_step_refl|].
    split; [done|]. exact (pseudoClass_effect _ _ _ _ value Hs Hsep Hsnap Ho).
  - rewrite (pseudoElement_run _ _ _ _ Hs). simpl.
    destruct (5 <? currOrder s)%Z; simpl; [by auto using local_step_refl|].
    destruct (truthy (myPseudoElement s)); simpl;
      (split; [done|split; [by eapply owns_fields|by eapply local_step_fields]]).
  - rewrite (combine_run _ _ _ _ _ _ Hs). simpl.
    split; [done|split; [by eapply owns_fields|by eapply local_step_fields]].
Qed.

(** ** Chains and histories of calls *)

Lemma new_owns h :
  owns (fst (ElementsSelector.new h)) (fresh (dom h)) Snapshot.new.
Proof.
  rewrite new_run. simpl.
  exists (mkSelector 0 None None None None None None None None None).
  split; [apply lookup_insert_eq|]. split; [by intros a|]. by repeat split.
Qed.

Lemma call_effect h l v c :
  owns h l v ->
  snd (call c l h) =
    match snd (Snapshot.call c v) with Some e => inl e | None => inr l end /\
  owns (fst (call c l h)) l (fst (Snapshot.call c v)) /\
  local_step h l (fst (call c l h)).
Proof. apply (invoke_effect h l v (Fragment c)). Qed.

Lemma chain_effect cs : forall h l v,
  owns h l v ->
  snd (chain cs l h) =
    match snd (Snapshot.chain cs v) with Some e => inl e | None => inr l end /\
  owns (fst (chain cs l h)) l (fst (Snapshot.chain cs v)).
Proof.
  induction cs as [|c cs IH]; intros h l v Hown; simpl; [done|].
  destruct (call_effect h l v c Hown) as (Hr & Ho & _).
  unfold bind. destruct (call c l h) as [h1 r]. simpl in *.
  destruct (Snapshot.call c v) as [v1 [e|]]; simpl in *; subst r; [done|].
  by apply IH.
Qed.

Lemma attempts_effect ms : forall h l v,
  owns h l v -> owns (attempts ms l h) l (Snapshot.attempts ms v).
Proof.
  induction ms as [|m ms IH]; intros h l v Hown; simpl; [done|].
  apply IH. unfold attempt. by apply invoke_effect.
Qed.

(** ** The order check *)

Lemma rank_nonneg c : (0 <= rank c)%Z.
Proof. destruct c; unfold rank; simpl; lia. Qed.

Lemma highest_nonneg ms : (0 <= highest ms)%Z.
Proof. induction ms as [|[c|] ms IH]; simpl; lia. Qed.

(** After a call, thrown or not, [currOrder] is the larger of what it was
    and the rank of the call. *)
Lemma call_order c v :
  currOrder (fst (Snapshot.call c v)) = Z.max (currOrder v) (rank c).
Proof.
  unfold Snapshot.call, Snapshot.checkOrder. fold (rank c).
  destruct (rank c <? currOrder v)%Z eqn:E; simpl.
  - apply Z.ltb_lt in E. lia.
  - apply Z.ltb_ge in E.
    destruct c; simpl;
      repeat match goal with |- context [if ?b then _ else _] => destruct b end;
      simpl; lia.
Qed.

Lemma call_order_error c v :
  snd (Snapshot.call c v) = Some OrderViolation <-> (rank c < currOrder v)%Z.
Proof.
  unfold Snapshot.call, Snapshot.checkOrder. fold (rank c).
  destruct (rank c <? currOrder v)%Z eqn:E; simpl.
  - apply Z.ltb_lt in E. done.
  - apply Z.ltb_ge in E. split; [|lia].
    destruct c; simpl;
      repeat match goal with |- context [if ?b then _ else _] => destruct b end;
      simpl; discriminate.
Qed.

Lemma invoke_order m v :
  currOrder (fst (Snapshot.invoke m v)) =
    match m with
    | Fragment c => Z.max (currOrder v) (rank c)
    | Combine _ _ _ => currOrder v
    end.
Proof. destruct m; simpl; [apply call_order|done]. Qed.

Lemma attempts_order ms : forall v,
  (0 <= currOrder v)%Z ->
  currOrder (Snapshot.attempts ms v) = Z.max (currOrder v) (highest ms).
Proof.
  induction ms as [|m ms IH]; intros v Hv; simpl; [lia|].
  rewrite IH; rewrite invoke_order; destruct m; pose proof (highest_nonneg ms); lia.
Qed.

(** C2: on a builder made by [new ElementsSelector()] and then used through
    any history of method calls (fragment setters and [combine], whether
    they returned or threw), a setter call raises OrderViolation exactly
    when its rank is strictly lower than the highest rank used in the
    history; a call of equal or higher rank never raises it. *)
Theorem order_violation_iff_lower_rank (h h1 : heap) (this : loc)
    (ms : list method) (c : setter) :
  ElementsSelector.new h = (h1, inr this) ->
  snd (call c this (attempts ms this h1)) = inl OrderViolation
  <-> (rank c < highest ms)%Z.
Proof.
  intros Hnew. pose proof (new_owns h) as Hown. rewrite new_run in Hnew.
  injection Hnew as <- <-. rewrite new_run in Hown. simpl in Hown.
  set (this := fresh (dom h)) in *.
  apply (attempts_effect ms) in Hown.
  destruct (call_effect _ _ _ c Hown) as (-> & _ & _).
  assert (currOrder (Snapshot.attempts ms Snapshot.new) = highest ms) as Ho.
  { rewrite attempts_order by (simpl; lia). simpl.
    pose proof (highest_nonneg ms). lia. }
  rewrite <- Ho, <- call_order_error.
  destruct (snd (Snapshot.call c (Snapshot.attempts ms Snapshot.new))) as [e|];
    split; intros H; try congruence.
Qed.

(** The scenario [element('div').id('main').class('x')], then [element('span')]. *)
Lemma order_violation_iff_lower_rank_witness :
  ElementsSelector.new ∅ = (fst (ElementsSelector.new ∅), inr 1%positive) /\
  snd (call (Element "span") 1%positive
         (attempts [Fragment (Element "div"); Fragment (Id "main");
                    Fragment (Class "x")] 1%positive (fst (ElementsSelector.new ∅))))
    = inl OrderViolation.
Proof.
  split; [reflexivity|].
  apply (order_violation_iff_lower_rank ∅ _ 1%positive); [reflexivity|].
  vm_compute. reflexivity.
Defined.

(** ** Chains of calls that do not throw *)

Arguments overwritten : simpl never.
Arguments appended : simpl never.
Arguments texts : simpl never.

Lemma texts_cons p c cs :
  texts p (c :: cs) =
    if decide (part_of c = p) then value_of c :: texts p cs else texts p cs.
Proof.
  unfold texts. rewrite filter_cons. by destruct (decide (part_of c = p)).
Qed.

Lemma last_rank_cons (n : Z) c cs :
  from_option rank n (last (c :: cs))
  = from_option rank (rank c) (last cs).
Proof.
  destruct cs as [|d cs]; [done|]. rewrite last_cons_cons.
  by destruct (last (d :: cs)) eqn:E; [|by apply last_None in E].
Qed.

Lemma overwritten_cons old x vs :
  overwritten old (x :: vs) = overwritten (Some x) vs.
Proof.
  unfold overwritten. destruct vs as [|y vs]; [done|]. rewrite last_cons_cons.
  by destruct (last (y :: vs)) eqn:E; [|by apply last_None in E].
Qed.

Lemma appended_cons old x vs :
  appended old (x :: vs) = appended (Snapshot.pushed old x) vs.
Proof.
  unfold appended, Snapshot.pushed. simpl.
  destruct vs as [|y vs]; [done|]. by rewrite <- app_assoc.
Qed.

Lemma free_cons old x vs v' :
  free old (x :: vs) -> truthy old = false /\ free v' vs.
Proof. destruct vs; simpl; [done|tauto]. Qed.

Lemma texts_same p c cs :
  part_of c = p -> texts p (c :: cs) = value_of c :: texts p cs.
Proof. intros. by rewrite texts_cons, decide_True. Qed.

Lemma texts_other p c cs : part_of c <> p -> texts p (c :: cs) = texts p cs.
Proof. intros. by rewrite texts_cons, decide_False. Qed.

Ltac texts_step :=
  repeat ((rewrite texts_same by done) || (rewrite texts_other by done)).

Ltac texts_step_in H :=
  repeat ((rewrite texts_same in H by done) || (rewrite texts_other in H by done)).

Lemma chain_valid cs : forall v,
  in_order_from (currOrder v) cs = true ->
  free (myElement v) (texts part_element cs) ->
  free (myId v) (texts part_id cs) ->
  free (myPseudoElement v) (texts part_pseudo_element cs) ->
  Snapshot.chain cs v = (final v cs, None).
Proof.
  induction cs as [|c cs IH]; intros v Ho He Hi Hp.
  { simpl. by destruct v. }
  simpl in Ho. apply andb_true_iff in Ho as [Hc Ho]. apply Z.leb_le in Hc.
  assert ((parts (part_of c) <? currOrder v)%Z = false) as Hlt
    by (apply Z.ltb_ge; exact Hc).
  simpl. unfold Snapshot.call, Snapshot.checkOrder. rewrite Hlt.
  unfold final. rewrite last_rank_cons.
  destruct c as [x|x|x|x|x|x]; texts_step; texts_step_in He; texts_step_in Hi;
    texts_step_in Hp; cbn [value_of] in *; simpl.
  - apply (free_cons _ _ _ (Some x)) in He as [-> He]. rewrite IH by done.
    unfold final. simpl. by rewrite overwritten_cons.
  - apply (free_cons _ _ _ (Some x)) in Hi as [-> Hi]. rewrite IH by done.
    unfold final. simpl. by rewrite overwritten_cons.
  - rewrite IH by done. unfold final. simpl. by rewrite appended_cons.
  - rewrite IH by done. unfold final. simpl. by rewrite overwritten_cons.
  - rewrite IH by done. unfold final. simpl. by rewrite appended_cons.
  - apply (free_cons _ _ _ (Some x)) in Hp as [-> Hp]. rewrite IH by done.
    unfold final. simpl. by rewrite overwritten_cons.
Qed.

(** ** The text of a builder *)

Lemma fragment_nonempty before after v :
  fragment before after (nonempty v)
  = if truthy v then before ++ to_text v ++ after else "".
Proof. unfold nonempty. destruct (truthy v) eqn:E; [|done]. by destruct v. Qed.

Lemma joined_appended sep vs :
  match appended None vs with
  | Some a => sep ++ String.concat sep a
  | None => ""
  end = joined sep vs.
Proof. by destruct vs. Qed.

Lemma overwritten_none vs : overwritten None vs = last vs.
Proof. unfold overwritten. by destruct (last vs). Qed.

Lemma stringify_final cs :
  Snapshot.stringify (final Snapshot.new cs) = selector_text cs.
Proof.
  unfold Snapshot.stringify, final, selector_text. simpl.
  rewrite !overwritten_none, !joined_appended, !fragment_nonempty.
  repeat match goal with |- context [truthy ?v] => destruct (truthy v) end;
    by rewrite ?append_empty_l, ?append_empty_r.
Qed.

Lemma free_once vs : length vs <= 1 -> free None vs.
Proof. destruct vs as [|x [|y vs]]; simpl; [done..|lia]. Qed.

(** C1, as the code has it: calls that respect the rank order and set
    element, id and pseudo-element at most once all return the builder, and
    [stringify()] then returns the element text, ['#'] and the id, the
    classes each after a ['.'], the attribute between brackets, the
    pseudo-classes each after a [':'], and ['::'] and the pseudo-element, in
    this order; a part that was not set contributes nothing, and neither
    does an element, id, attribute or pseudo-element set to the empty
    string. *)
Theorem stringify_of_ordered_calls (h h1 : heap) (this : loc) (cs : list setter) :
  ElementsSelector.new h = (h1, inr this) ->
  respects_order cs ->
  singletons_once cs ->
  exists h2,
    chain cs this h1 = (h2, inr this) /\
    ElementsSelector.stringify this h2 = (h2, inr (selector_text cs)).
Proof.
  intros Hnew Ho (He & Hi & Hp).
  pose proof (new_owns h) as Hown. rewrite Hnew in Hown.
  rewrite new_run in Hnew. injection Hnew as _ <-. simpl in Hown.
  destruct (chain_effect cs _ _ _ Hown) as (Hr & Hown').
  rewrite (chain_valid cs Snapshot.new) in Hr, Hown' by auto using free_once.
  simpl in *. exists (fst (chain cs (fresh (dom h)) h1)). split.
  - rewrite <- Hr. by destruct (chain cs (fresh (dom h)) h1).
  - rewrite (stringify_owns _ _ _ Hown'). by rewrite stringify_final.
Qed.

(** The scenario [element('a').attr(...).pseudoClass('focus')]. *)
Lemma stringify_of_ordered_calls_witness :
  exists h2,
    chain [Element "a"; Attr "href$=.png"; PseudoClass "focus"] 1%positive
      (fst (ElementsSelector.new ∅)) = (h2, inr 1%positive) /\
    ElementsSelector.stringify 1%positive h2 = (h2, inr "a[href$=.png]:focus").
Proof.
  apply (stringify_of_ordered_calls ∅); [reflexivity|reflexivity|].
  repeat split; vm_compute; lia.
Defined.

(** When no call has the empty string as its value, this is the text as
    the claim states it. *)
Lemma selector_text_stated cs :
  Forall (fun c => value_of c <> "") cs -> selector_text cs = stated_text cs.
Proof.
  intros Hall.
  assert (forall p, nonempty (last (texts p cs)) = last (texts p cs)) as Hne.
  { intros p. destruct (last (texts p cs)) as [x|] eqn:E; [|done].
    unfold nonempty. simpl. destruct (String.eqb_spec x ""); [|done]. subst x.
    apply last_Some_elem_of in E. unfold texts in E.
    apply list_elem_of_fmap in E as (c & Hc & Hin).
    apply list_elem_of_filter in Hin as [_ Hin].
    rewrite Forall_forall in Hall. by destruct (Hall c Hin). }
  unfold selector_text, stated_text. by rewrite !Hne.
Qed.

(** C1 as stated fails: after [id('')] the id is set, yet [stringify()]
    returns the empty text and not ['#']. *)
Lemma stated_text_counterexample :
  ~ (forall (h h1 h2 : heap) (this : loc) (cs : list setter),
       ElementsSelector.new h = (h1, inr this) ->
       respects_order cs ->
       singletons_once cs ->
       chain cs this h1 = (h2, inr this) ->
       snd (ElementsSelector.stringify this h2) = inr (stated_text cs)).
Proof.
  intros H.
  specialize (H ∅ (fst (ElementsSelector.new ∅))
                (fst (chain [Id ""] 1%positive (fst (ElementsSelector.new ∅))))
                1%positive [Id ""]).
  assert (snd (ElementsSelector.stringify 1%positive
                 (fst (chain [Id ""] 1%positive (fst (ElementsSelector.new ∅)))))
          = inr "") as Hcode by (vm_compute; reflexivity).
  rewrite Hcode in H.
  assert (stated_text [Id ""] = "#") as Hstated by (vm_compute; reflexivity).
  rewrite Hstated in H.
  discriminate H; try reflexivity.
  repeat split; vm_compute; lia.
Qed.

(** ** Fields along a chain of calls *)

Lemma chain_app xs ys v :
  Snapshot.chain (xs ++ ys) v =
    match Snapshot.chain xs v with
    | (v1, Some e) => (v1, Some e)
    | (v1, None) => Snapshot.chain ys v1
    end.
Proof.
  revert v. induction xs as [|x xs IH]; intros v; simpl; [done|].
  destruct (Snapshot.call x v) as [v1 [e|]]; [done|apply IH].
Qed.

Lemma highest_fragments_cons c cs :
  highest (map Fragment (c :: cs)) = Z.max (rank c) (highest (map Fragment cs)).
Proof. done. Qed.

Lemma chain_order cs : forall v vf,
  Snapshot.chain cs v = (vf, None) ->
  (0 <= currOrder v)%Z ->
  currOrder vf = Z.max (currOrder v) (highest (map Fragment cs)).
Proof.
  induction cs as [|c cs IH]; intros v vf Hc Hv.
  { injection Hc as <-. simpl. lia. }
  rewrite highest_fragments_cons. simpl in Hc.
  pose proof (call_order c v) as Ho. pose proof (rank_nonneg c).
  destruct (Snapshot.call c v) as [v1 [e|]]; [done|]. simpl in Ho.
  rewrite (IH _ _ Hc) by lia. lia.
Qed.

(** A call that returns leaves [currOrder] at its rank and its value in its
    text field. *)
Lemma call_returns c v v1 :
  Snapshot.call c v = (v1, None) ->
  currOrder v1 = rank c /\
  (part_of c <> part_class -> part_of c <> part_pseudo_class ->
   stored (part_of c) v1 = Some (value_of c)).
Proof.
  unfold Snapshot.call, Snapshot.checkOrder. fold (rank c).
  destruct (rank c <? currOrder v)%Z; [done|].
  destruct c; simpl;
    repeat match goal with |- context [if ?b then _ else _] => destruct b end;
    intros [= <-]; simpl; done.
Qed.

(** No call changes an element, id or pseudo-element that holds a
    non-empty text. *)
Lemma call_keeps_singleton p c v :
  singleton p = true -> truthy (stored p v) = true ->
  stored p (fst (Snapshot.call c v)) = stored p v.
Proof.
  intros Hp Ht. unfold Snapshot.call, Snapshot.checkOrder.
  destruct (parts (part_of c) <? currOrder v)%Z; [done|].
  destruct p; try discriminate; destruct c; simpl in *; rewrite ?Ht; try done;
    repeat match goal with |- context [if ?b then _ else _] => destruct b end;
    done.
Qed.

Lemma chain_keeps_singleton p cs : forall v,
  singleton p = true -> truthy (stored p v) = true ->
  stored p (fst (Snapshot.chain cs v)) = stored p v.
Proof.
  induction cs as [|c cs IH]; intros v Hp Ht; simpl; [done|].
  pose proof (call_keeps_singleton p c v Hp Ht) as Hc.
  destruct (Snapshot.call c v) as [v1 [e|]]; simpl in *; [done|].
  rewrite IH; [done..|]. by rewrite Hc.
Qed.

(** Only the setter of a part writes to its text field. *)
Lemma call_keeps_other p c v :
  part_of c <> p -> stored p (fst (Snapshot.call c v)) = stored p v.
Proof.
  intros Hp. unfold Snapshot.call, Snapshot.checkOrder.
  destruct (parts (part_of c) <? currOrder v)%Z; [done|].
  destruct p, c; simpl in *; try done;
    repeat match goal with |- context [if ?b then _ else _] => destruct b end;
    done.
Qed.

Lemma chain_keeps_other p cs : forall v,
  texts p cs = [] -> stored p (fst (Snapshot.chain cs v)) = stored p v.
Proof.
  induction cs as [|c cs IH]; intros v Ht; simpl; [done|].
  rewrite texts_cons in Ht. destruct (decide (part_of c = p)) as [|Hne]; [done|].
  pose proof (call_keeps_other p c v Hne) as Hc.
  destruct (Snapshot.call c v) as [v1 [e|]]; simpl in *; [done|].
  by rewrite IH, Hc.
Qed.

(** The state a chain that returned is in after one of its calls [c]. *)
Lemma chain_split pre c mid v vf :
  Snapshot.chain (pre ++ c :: mid) v = (vf, None) ->
  (0 <= currOrder v)%Z ->
  exists v2,
    Snapshot.chain mid v2 = (vf, None) /\
    currOrder v2 = rank c /\
    (part_of c <> part_class -> part_of c <> part_pseudo_class ->
     stored (part_of c) v2 = Some (value_of c)) /\
    currOrder vf = Z.max (rank c) (highest (map Fragment mid)).
Proof.
  intros Hc Hv. rewrite chain_app in Hc.
  destruct (Snapshot.chain pre v) as [v1 [e|]]; [done|]. simpl in Hc.
  destruct (Snapshot.call c v1) as [v2 [e|]] eqn:Ec; [done|].
  destruct (call_returns _ _ _ Ec) as (Ho & Hs).
  exists v2. repeat split; try done.
  rewrite (chain_order _ _ _ Hc), Ho; [done|]. rewrite Ho. apply rank_nonneg.
Qed.

Lemma new_builder h h1 this :
  ElementsSelector.new h = (h1, inr this) -> owns h1 this Snapshot.new.
Proof.
  intros Hnew. pose proof (new_owns h) as Hown. rewrite Hnew in Hown.
  rewrite new_run in Hnew. by injection Hnew as _ <-.
Qed.

Lemma chain_returned h h1 this cs h2 r :
  ElementsSelector.new h = (h1, inr this) ->
  chain cs this h1 = (h2, inr r) ->
  exists vf, Snapshot.chain cs Snapshot.new = (vf, None) /\ owns h2 this vf.
Proof.
  intros Hnew Hc. apply new_builder in Hnew.
  destruct (chain_effect cs _ _ _ Hnew) as (Hr & Hown).
  rewrite Hc in Hr, Hown. simpl in *.
  destruct (Snapshot.chain cs Snapshot.new) as [vf [e|]]; [done|]. eauto.
Qed.

(** A call whose rank is below [currOrder] throws before it writes. *)
Lemma call_below_order h this s c :
  h !! this = Some (Selector s) ->
  (rank c < currOrder s)%Z ->
  call c this h = (h, inl OrderViolation).
Proof.
  intros Hs Hlt. apply Z.ltb_lt in Hlt. unfold rank in Hlt.
  destruct c; simpl in *;
    unfold ElementsSelector.element, ElementsSelector.id, ElementsSelector.class,
      ElementsSelector.attr, ElementsSelector.pseudoClass,
      ElementsSelector.pseudoElement, bind;
    rewrite (checkOrder_run _ _ _ _ Hs); simpl; by rewrite Hlt.
Qed.

(** ** Calling a singleton setter again *)

Lemma second_call_snapshot c c' mid v2 vf :
  Snapshot.chain mid v2 = (vf, None) ->
  currOrder vf = Z.max (rank c) (highest (map Fragment mid)) ->
  stored (part_of c) vf = Some (value_of c) ->
  singleton (part_of c) = true ->
  part_of c' = part_of c ->
  snd (Snapshot.call c' vf) =
    if (rank c <? highest (map Fragment mid))%Z then Some OrderViolation
    else if truthy (Some (value_of c)) then Some DuplicateFragment
    else None.
Proof.
  intros Hmid Ho Hs Hsing Hpart.
  unfold Snapshot.call, Snapshot.checkOrder. rewrite Hpart. fold (rank c).
  rewrite Ho.
  destruct (rank c <? highest (map Fragment mid))%Z eqn:E.
  - apply Z.ltb_lt in E.
    assert ((rank c <? Z.max (rank c) (highest (map Fragment mid)))%Z = true) as ->
      by (apply Z.ltb_lt; lia). done.
  - apply Z.ltb_ge in E.
    assert ((rank c <? Z.max (rank c) (highest (map Fragment mid)))%Z = false) as ->
      by (apply Z.ltb_ge; lia).
    destruct c' as [x|x|x|x|x|x], c as [y|y|y|y|y|y]; try discriminate;
      simpl in *; rewrite Hs; simpl; by destruct (String.eqb y "").
Qed.

(** C3, as the code has it: when a singleton setter (element, id or
    pseudoElement) has been called with a non-empty value in a chain of
    calls that all returned, calling the same setter again throws:
    OrderViolation if a setter of higher rank was called in between,
    DuplicateFragment otherwise. *)
Theorem second_singleton_call_throws (h h1 h2 : heap) (this : loc)
    (pre mid : list setter) (c c' : setter) :
  ElementsSelector.new h = (h1, inr this) ->
  chain (pre ++ c :: mid) this h1 = (h2, inr this) ->
  singleton (part_of c) = true ->
  value_of c <> "" ->
  part_of c' = part_of c ->
  snd (call c' this h2) =
    inl (if (rank c <? highest (map Fragment mid))%Z then OrderViolation
         else DuplicateFragment).
Proof.
  intros Hnew Hc Hsing Hval Hpart.
  destruct (chain_returned _ _ _ _ _ _ Hnew Hc) as (vf & Hvf & Hown).
  destruct (chain_split _ _ _ _ _ Hvf) as (v2 & Hmid & Ho2 & Hs2 & Hof);
    [simpl; lia|].
  assert (stored (part_of c) vf = Some (value_of c)) as Hs.
  { replace vf with (fst (Snapshot.chain mid v2)) by (by rewrite Hmid).
    rewrite chain_keeps_singleton; [|done|].
    - apply Hs2; by destruct c.
    - rewrite Hs2 by (by destruct c). simpl.
      destruct (String.eqb_spec (value_of c) ""); done. }
  destruct (call_effect _ _ _ c' Hown) as (-> & _ & _).
  rewrite (second_call_snapshot c c' mid v2 vf) by done.
  destruct (rank c <? highest (map Fragment mid))%Z; [done|]. simpl.
  destruct (String.eqb_spec (value_of c) ""); done.
Qed.

(** The scenario [id('a').id('b')]. *)
Lemma second_singleton_call_throws_witness :
  snd (call (Id "b") 1%positive
         (fst (chain [Id "a"] 1%positive (fst (ElementsSelector.new ∅)))))
  = inl DuplicateFragment.
Proof.
  apply (second_singleton_call_throws ∅ (fst (ElementsSelector.new ∅))
           (fst (chain [Id "a"] 1%positive (fst (ElementsSelector.new ∅))))
           1%positive [] [] (Id "a") (Id "b"));
    try reflexivity.
  discriminate.
Defined.

(** C3 as stated fails twice: after [id('')] a second [id('b')] returns,
    and after [element('a').id('m')] a second [element('b')] throws
    OrderViolation, not DuplicateFragment. *)
Lemma second_singleton_call_counterexample :
  snd (chain [Id ""; Id "b"] 1%positive (fst (ElementsSelector.new ∅)))
    = inr 1%positive /\
  snd (chain [Element "a"; Id "m"] 1%positive (fst (ElementsSelector.new ∅)))
    = inr 1%positive /\
  snd (chain [Element "a"; Id "m"; Element "b"] 1%positive
         (fst (ElementsSelector.new ∅)))
    = inl OrderViolation /\
  OrderViolation <> DuplicateFragment.
Proof. repeat split; try (vm_compute; reflexivity). discriminate. Qed.

Lemma owns_record h l v :
  owns h l v ->
  exists s, h !! l = Some (Selector s) /\ currOrder s = currOrder v.
Proof.
  intros (s & Hs & _ & _ & _ & Hv). exists s. split; [done|]. by rewrite Hv.
Qed.

(** C8, as the code has it: when a singleton setter (element, id or
    pseudoElement) was called with the empty string in a chain of calls
    that all returned, and not again since, the builder holds the empty
    string for it, and calling the setter again does not throw
    DuplicateFragment: it returns the builder with the new value stored,
    unless a setter of higher rank was called in between, and then it
    throws OrderViolation and writes nothing, so that the stored value
    stays. *)
Theorem empty_value_is_overwritten (h h1 h2 : heap) (this : loc)
    (pre mid : list setter) (c c' : setter) :
  ElementsSelector.new h = (h1, inr this) ->
  chain (pre ++ c :: mid) this h1 = (h2, inr this) ->
  singleton (part_of c) = true ->
  value_of c = "" ->
  texts (part_of c) mid = [] ->
  part_of c' = part_of c ->
  (exists v, observe h2 this = Some v /\ stored (part_of c) v = Some "") /\
  if (rank c <? highest (map Fragment mid))%Z
  then call c' this h2 = (h2, inl OrderViolation)
  else exists h3 v',
         call c' this h2 = (h3, inr this) /\
         observe h3 this = Some v' /\
         stored (part_of c) v' = Some (value_of c').
Proof.
  intros Hnew Hc Hsing Hval Hnone Hpart.
  destruct (chain_returned _ _ _ _ _ _ Hnew Hc) as (vf & Hvf & Hown).
  destruct (chain_split _ _ _ _ _ Hvf) as (v2 & Hmid & Ho2 & Hs2 & Hof);
    [simpl; lia|].
  assert (stored (part_of c) vf = Some (value_of c)) as Hs.
  { replace vf with (fst (Snapshot.chain mid v2)) by (by rewrite Hmid).
    rewrite chain_keeps_other by done. apply Hs2; by destruct c. }
  split.
  { exists vf. split; [by apply owns_observe|]. by rewrite Hs, Hval. }
  destruct (call_effect _ _ _ c' Hown) as (Hr & Hown' & _).
  pose proof (second_call_snapshot c c' mid v2 vf Hmid Hof Hs Hsing Hpart) as Hsnd.
  rewrite Hval in Hsnd. simpl in Hsnd.
  destruct (rank c <? highest (map Fragment mid))%Z eqn:E.
  - apply Z.ltb_lt in E.
    destruct (owns_record _ _ _ Hown) as (s & Hs' & Hos).
    apply (call_below_order _ _ s); [done|].
    assert (rank c' = rank c) as -> by (unfold rank; by rewrite Hpart).
    rewrite Hos, Hof. lia.
  - exists (fst (call c' this h2)), (fst (Snapshot.call c' vf)).
    rewrite Hsnd in Hr. split; [|split].
    + by destruct (call c' this h2); simpl in *; subst.
    + by apply owns_observe.
    + destruct (Snapshot.call c' vf) as [v1 [e|]] eqn:Ec; [done|].
      destruct (call_returns _ _ _ Ec) as (_ & Hst). simpl.
      rewrite <- Hpart. apply Hst; rewrite Hpart; by destruct c.
Qed.

(** The scenario [id('').id('b')]. *)
Lemma empty_value_is_overwritten_witness :
  let h2 := fst (chain [Id ""] 1%positive (fst (ElementsSelector.new ∅))) in
  (exists v, observe h2 1%positive = Some v /\ stored part_id v = Some "") /\
  exists h3 v',
    call (Id "b") 1%positive h2 = (h3, inr 1%positive) /\
    observe h3 1%positive = Some v' /\
    stored part_id v' = Some "b".
Proof.
  intros h2.
  apply (empty_value_is_overwritten ∅ (fst (ElementsSelector.new ∅)) h2
           1%positive [] [] (Id "") (Id "b")); reflexivity.
Defined.

(** C8 as stated fails when a setter of higher rank comes in between:
    after [element('').id('x')] the call [element('y')] throws
    OrderViolation and the stored element is still the empty string. *)
Lemma empty_value_counterexample :
  let h2 := fst (chain [Element ""; Id "x"] 1%positive (fst (ElementsSelector.new ∅))) in
  snd (chain [Element ""; Id "x"] 1%positive (fst (ElementsSelector.new ∅)))
    = inr 1%positive /\
  call (Element "y") 1%positive h2 = (h2, inl OrderViolation) /\
  (myElement <$> observe h2 1%positive) = Some (Some "") /\
  (myElement <$> observe (fst (call (Element "y") 1%positive h2)) 1%positive)
    = Some (Some "").
Proof. repeat split; vm_compute; reflexivity. Qed.

(** C9: when a singleton setter (element, id or pseudoElement) is called
    on a builder on which it was already called with a non-empty value and
    on which a setter of higher rank was called too, so that both the
    duplication rule and the ordering rule are violated, the call throws
    OrderViolation, and it does so before writing anything. *)
Theorem order_error_comes_first (h h1 h2 : heap) (this : loc)
    (cs : list setter) (c c' : setter) :
  ElementsSelector.new h = (h1, inr this) ->
  chain cs this h1 = (h2, inr this) ->
  In c cs ->
  singleton (part_of c) = true ->
  value_of c <> "" ->
  part_of c' = part_of c ->
  (rank c < highest (map Fragment cs))%Z ->
  call c' this h2 = (h2, inl OrderViolation) /\
  exists v, observe h2 this = Some v /\
            truthy (stored (part_of c') v) = true /\
            (rank c' < currOrder v)%Z.
Proof.
  intros Hnew Hc Hin Hsing Hval Hpart Hlt.
  destruct (chain_returned _ _ _ _ _ _ Hnew Hc) as (vf & Hvf & Hown).
  pose proof (chain_order _ _ _ Hvf) as Ho. simpl in Ho.
  specialize (Ho ltac:(lia)).
  apply in_split in Hin as (pre & mid & ->).
  destruct (chain_split _ _ _ _ _ Hvf) as (v2 & Hmid & Ho2 & Hs2 & Hof);
    [simpl; lia|].
  assert (stored (part_of c) vf = Some (value_of c)) as Hs.
  { replace vf with (fst (Snapshot.chain mid v2)) by (by rewrite Hmid).
    rewrite chain_keeps_singleton; [|done|].
    - apply Hs2; by destruct c.
    - rewrite Hs2 by (by destruct c). simpl.
      destruct (String.eqb_spec (value_of c) ""); done. }
  assert (rank c' = rank c) as Hrank by (unfold rank; by rewrite Hpart).
  assert (rank c' < currOrder vf)%Z as Hlt'.
  { rewrite Ho. lia. }
  destruct (owns_record _ _ _ Hown) as (s & Hs' & Hos).
  split.
  - apply (call_below_order _ _ s); [done|]. by rewrite Hos.
  - exists vf. split; [by apply owns_observe|]. split; [|done].
    rewrite Hpart, Hs. simpl. destruct (String.eqb_spec (value_of c) ""); done.
Qed.

(** The scenario [element('div').id('main')], then [element('span')]. *)
Lemma order_error_comes_first_witness :
  call (Element "span") 1%positive
    (fst (chain [Element "div"; Id "main"] 1%positive (fst (ElementsSelector.new ∅))))
  = (fst (chain [Element "div"; Id "main"] 1%positive (fst (ElementsSelector.new ∅))),
     inl OrderViolation) /\
  exists v,
    observe (fst (chain [Element "div"; Id "main"] 1%positive
                    (fst (ElementsSelector.new ∅)))) 1%positive = Some v /\
    truthy (stored (part_of (Element "span")) v) = true /\
    (rank (Element "span") < currOrder v)%Z.
Proof.
  apply (order_error_comes_first ∅ (fst (ElementsSelector.new ∅))
           (fst (chain [Element "div"; Id "main"] 1%positive
                   (fst (ElementsSelector.new ∅))))
           1%positive [Element "div"; Id "main"] (Element "div") (Element "span"));
    try reflexivity.
  - left. reflexivity.
  - discriminate.
Defined.

(** ** stringify *)

(** C6: [stringify()] leaves the store as it found it, so no field of the
    builder it is called on changes, and called again any number of times
    with no other call in between it returns the same result. *)
Theorem stringify_is_a_pure_read (this : loc) (h : heap) :
  fst (ElementsSelector.stringify this h) = h /\
  forall n : nat,
    snd (ElementsSelector.stringify this
           (Nat.iter n (fun h => fst (ElementsSelector.stringify this h)) h))
    = snd (ElementsSelector.stringify this h).
Proof.
  split; [apply stringify_read_only|].
  intros n. induction n as [|n IH]; simpl; [done|].
  by rewrite stringify_read_only.
Qed.

(** ** The facade's combine *)

Lemma stringify_result this h r :
  snd (ElementsSelector.stringify this h) = r ->
  ElementsSelector.stringify this h = (h, r).
Proof.
  intros <-. pose proof (stringify_read_only this h) as H.
  destruct (ElementsSelector.stringify this h); simpl in *. by subst.
Qed.

Lemma facade_combine_run h a b c sa sb :
  snd (ElementsSelector.stringify a h) = inr sa ->
  snd (ElementsSelector.stringify b h) = inr sb ->
  cssSelectorBuilder.combine a c b h =
    (<[fresh (dom h) := Selector (combined sa c sb)]> h, inr (fresh (dom h))).
Proof.
  intros Ha Hb. unfold cssSelectorBuilder.combine, bind at 1.
  rewrite (stringify_result _ _ _ Ha). unfold bind at 1.
  rewrite (stringify_result _ _ _ Hb). unfold bind at 1.
  rewrite new_run.
  erewrite combine_run by apply lookup_insert_eq.
  by rewrite insert_insert_eq.
Qed.

Lemma combined_text h k sa c sb :
  h !! k = Some (Selector (combined sa c sb)) ->
  ElementsSelector.stringify k h =
    (h, inr (if truthy (Some sa) && truthy (Some sb)
             then sa ++ " " ++ c ++ " " ++ sb else "")).
Proof.
  intros Hk.
  rewrite (stringify_run h k _
             (mkSelector 0 None None None None None None (Some sa) (Some c) (Some sb))
             Hk) by (by repeat split).
  unfold Snapshot.stringify. simpl.
  by destruct (negb (String.eqb sa "") && negb (String.eqb sb "")).
Qed.

(** C4, as the code has it: when [stringify()] of two builders gives the
    non-empty texts [sa] and [sb], the facade's [combine] returns a builder
    whose [stringify()] gives [sa], a space, the combinator, a space and
    [sb]. *)
Theorem combine_joins_texts (h : heap) (a b : loc) (c sa sb : string) :
  snd (ElementsSelector.stringify a h) = inr sa ->
  snd (ElementsSelector.stringify b h) = inr sb ->
  sa <> "" -> sb <> "" ->
  exists h' k,
    cssSelectorBuilder.combine a c b h = (h', inr k) /\
    ElementsSelector.stringify k h' = (h', inr (sa ++ " " ++ c ++ " " ++ sb)).
Proof.
  intros Ha Hb Hsa Hsb. eexists _, _. split; [by apply facade_combine_run|].
  rewrite (combined_text _ _ sa c sb) by apply lookup_insert_eq. simpl.
  destruct (String.eqb_spec sa ""), (String.eqb_spec sb ""); done.
Qed.

(** The scenario [combine(element('a'), '+', element('b'))]. *)
Lemma combine_joins_texts_witness :
  exists h' k,
    cssSelectorBuilder.combine 1%positive "+" 2%positive
      (fst (cssSelectorBuilder.element "b" (fst (cssSelectorBuilder.element "a" ∅))))
    = (h', inr k) /\
    ElementsSelector.stringify k h' = (h', inr "a + b").
Proof.
  apply (combine_joins_texts _ 1%positive 2%positive "+" "a" "b");
    try (vm_compute; reflexivity); discriminate.
Defined.

(** C4 as stated fails: with [a = element('')], whose text is empty, and
    [b = element('b')], the text of [combine(a, '+', b)] is empty and not
    [' + b']. *)
Lemma combine_joins_texts_counterexample :
  snd ((let! a := cssSelectorBuilder.element "" in
        let! b := cssSelectorBuilder.element "b" in
        let! k := cssSelectorBuilder.combine a "+" b in
        let! sa := ElementsSelector.stringify a in
        let! sb := ElementsSelector.stringify b in
        let! sk := ElementsSelector.stringify k in
        ret (sa, sb, sk)) ∅) = inr ("", "b", "") /\
  "" <> "" ++ " " ++ "+" ++ " " ++ "b".
Proof. split; [vm_compute; reflexivity|discriminate]. Qed.

(** ** Rectangle *)

(** C7: for all numbers [w] and [h], [Rectangle w h] has [width] equal to
    [w], [height] equal to [h], and its area method returns the product
    [w * h] of JavaScript numbers. *)
Theorem Rectangle_fields_and_area (w h : float) :
  width (Rectangle w h) = w /\
  height (Rectangle w h) = h /\
  getArea (Rectangle w h) = (w * h)%float.
Proof. repeat split. Qed.

(** ** What a method call leaves alone *)

Section keeps.
Context (P : heap -> Prop).

Lemma keeps_ret {A} (a : A) : keeps P (ret a).
Proof. by intros h. Qed.

Lemma keeps_throw {A} e : keeps P (throw (A := A) e).
Proof. by intros h. Qed.

Lemma keeps_bind {A B} (m : M A) (k : A -> M B) :
  keeps P m -> (forall a, keeps P (k a)) -> keeps P (bind m k).
Proof.
  intros Hm Hk h Hh. unfold bind. specialize (Hm h Hh).
  destruct (m h) as [h' [e|a]]; simpl in *; [done|by apply Hk].
Qed.

Lemma keeps_read_only {A} (m : M A) : read_only m -> keeps P m.
Proof. intros Hm h Hh. by rewrite Hm. Qed.

End keeps.

Lemma keeps_assign k s l f : l <> k -> keeps (holds k s) (assign l f).
Proof.
  intros Hne h Hh. unfold assign, holds in *.
  destruct (h !! l) as [[s0|]|]; simpl; [|done..]. by rewrite lookup_insert_ne.
Qed.

Lemma keeps_alloc k s o : keeps (holds k s) (alloc o).
Proof.
  intros h Hh. unfold alloc, holds in *. simpl.
  rewrite lookup_insert_ne; [done|]. intros Heq.
  pose proof (fresh_unused h). congruence.
Qed.

Lemma keeps_push k s a v : keeps (holds k s) (push a v).
Proof.
  intros h Hh. unfold push, holds in *.
  destruct (h !! a) as [[|items]|] eqn:E; simpl; [done| |done].
  rewrite lookup_insert_ne; [done|congruence].
Qed.

Lemma keeps_checkOrder k s l p :
  l <> k -> keeps (holds k s) (ElementsSelector.checkOrder l p).
Proof.
  intros Hne. apply keeps_bind; [apply keeps_read_only, read_only_get_this|].
  intros s0. destruct (parts p <? currOrder s0)%Z;
    [apply keeps_throw|by apply keeps_assign].
Qed.

Ltac keeps_step :=
  first
    [ apply keeps_ret
    | apply keeps_throw
    | apply keeps_checkOrder; assumption
    | apply keeps_assign; assumption
    | apply keeps_alloc
    | apply keeps_push
    | apply keeps_read_only, read_only_get_this
    | apply keeps_bind; [|intros ?]
    | match goal with
      | |- keeps _ (if ?b then _ else _) => destruct b
      | |- keeps _ (match ?o with Some _ => _ | None => _ end) => destruct o
      end ].

(** A method call on [l] does not touch the record of another builder. *)
Lemma invoke_keeps k s l m : l <> k -> keeps (holds k s) (invoke m l).
Proof.
  intros Hne.
  destruct m as [[v|v|v|v|v|v]|s1 c s2]; simpl;
    unfold ElementsSelector.element, ElementsSelector.id, ElementsSelector.class,
      ElementsSelector.attr, ElementsSelector.pseudoClass,
      ElementsSelector.pseudoElement, ElementsSelector.combine;
    repeat keeps_step.
Qed.

Lemma mutate_keeps k s ms : forall h,
  Forall (fun lm => fst lm <> k) ms ->
  holds k s h -> holds k s (mutate ms h).
Proof.
  induction ms as [|[l m] ms IH]; intros h Hms Hh; simpl; [done|].
  inversion Hms as [|? ? Hl Hms']; subst. simpl in Hl.
  apply IH; [done|]. by apply invoke_keeps.
Qed.

Lemma stringify_builder a h sa :
  snd (ElementsSelector.stringify a h) = inr sa -> exists s, h !! a = Some (Selector s).
Proof.
  unfold ElementsSelector.stringify, bind, get_this.
  destruct (h !! a) as [[s|]|]; simpl; [eauto|discriminate..].
Qed.

Lemma facade_combine_returned h a b c h1 k :
  cssSelectorBuilder.combine a c b h = (h1, inr k) ->
  exists sa sb,
    snd (ElementsSelector.stringify a h) = inr sa /\
    snd (ElementsSelector.stringify b h) = inr sb /\
    k = fresh (dom h) /\
    h1 = <[k := Selector (combined sa c sb)]> h.
Proof.
  intros Hc.
  destruct (snd (ElementsSelector.stringify a h)) as [e|sa] eqn:Ea.
  { unfold cssSelectorBuilder.combine, bind at 1 in Hc.
    rewrite (stringify_result _ _ _ Ea) in Hc. discriminate. }
  destruct (snd (ElementsSelector.stringify b h)) as [e|sb] eqn:Eb.
  { unfold cssSelectorBuilder.combine, bind at 1 in Hc.
    rewrite (stringify_result _ _ _ Ea) in Hc. unfold bind at 1 in Hc.
    rewrite (stringify_result _ _ _ Eb) in Hc. discriminate. }
  rewrite (facade_combine_run _ _ _ c _ _ Ea Eb) in Hc.
  injection Hc as <- <-. by exists sa, sb.
Qed.

(** C10: the builder that the facade's [combine] returns holds the two
    texts that [stringify()] gave for its arguments at the call; whatever
    methods are then called on the two arguments, it still holds these
    texts and its [stringify()] returns what it returned before. *)
Theorem combined_text_is_fixed (h h1 : heap) (a b k : loc) (c : string) :
  cssSelectorBuilder.combine a c b h = (h1, inr k) ->
  exists sa sb,
    snd (ElementsSelector.stringify a h) = inr sa /\
    snd (ElementsSelector.stringify b h) = inr sb /\
    forall ms : list (loc * method),
      Forall (fun lm => fst lm = a \/ fst lm = b) ms ->
      mutate ms h1 !! k = Some (Selector (combined sa c sb)) /\
      snd (ElementsSelector.stringify k (mutate ms h1))
      = snd (ElementsSelector.stringify k h1).
Proof.
  intros Hc.
  destruct (facade_combine_returned _ _ _ _ _ _ Hc) as (sa & sb & Ha & Hb & Hk & ->).
  exists sa, sb. split; [done|]. split; [done|]. intros ms Hms.
  assert (a <> k /\ b <> k) as [Hak Hbk].
  { destruct (stringify_builder _ _ _ Ha) as (s1 & H1).
    destruct (stringify_builder _ _ _ Hb) as (s2 & H2).
    pose proof (fresh_unused h). split; congruence. }
  assert (holds k (combined sa c sb)
            (mutate ms (<[k := Selector (combined sa c sb)]> h))) as Hk'.
  { apply mutate_keeps; [|apply lookup_insert_eq].
    eapply Forall_impl; [exact Hms|]. intros [l m] [->| ->]; done. }
  split; [exact Hk'|].
  rewrite (combined_text _ _ _ _ _ Hk').
  by rewrite (combined_text _ k sa c sb) by apply lookup_insert_eq.
Qed.

(** After [combine(a, '+', b)], the calls [a.id('x')] and [b.class('y')]. *)
Lemma combined_text_is_fixed_witness :
  let h0 := fst (cssSelectorBuilder.element "b"
                   (fst (cssSelectorBuilder.element "a" ∅))) in
  let h1 := fst (cssSelectorBuilder.combine 1%positive "+" 2%positive h0) in
  let ms := [(1%positive, Fragment (Id "x")); (2%positive, Fragment (Class "y"))] in
  snd (ElementsSelector.stringify 3%positive (mutate ms h1))
  = snd (ElementsSelector.stringify 3%positive h1).
Proof.
  intros h0 h1 ms.
  destruct (combined_text_is_fixed h0 h1 1%positive 2%positive 3%positive "+")
    as (sa & sb & _ & _ & H); [vm_compute; reflexivity|].
  apply (H ms).
  constructor; [left; reflexivity|]. constructor; [right; reflexivity|]. constructor.
Defined.

(** ** Stores that the facade and the builders' methods produce *)

Lemma wf_empty : wf ∅.
Proof.
  split.
  - intros l s H. by rewrite lookup_empty in H.
  - intros l1 l2 k _ (s & H & _). by rewrite lookup_empty in H.
Qed.

Lemma refers_array h l k :
  wf h -> refers h l k -> exists items, h !! k = Some (Array items).
Proof.
  intros [Ha _] (s & Hs & Hr). destruct (Ha _ _ Hs) as (v & s' & Hs' & _ & Hcl & Hpc & _).
  rewrite Hs in Hs'. injection Hs' as <-.
  destruct Hr as [Hr|Hr]; rewrite Hr in *.
  - apply deref_array in Hcl as (items & ? & _). eauto.
  - apply deref_array in Hpc as (items & ? & _). eauto.
Qed.

(** A builder that a local step on another builder leaves in place keeps
    its arrays. *)
Lemma local_step_owns h l h' l2 v :
  wf h -> is_builder h l -> local_step h l h' -> l <> l2 ->
  owns h l2 v -> owns h' l2 v.
Proof.
  intros Hwf (sl & Hsl) (Hsame & _ & _) Hne (s & Hs & Hsep & Hcl & Hpc & Hv).
  assert (forall k, refers h l2 k -> h' !! k = h !! k) as Harr.
  { intros k Hk. destruct (refers_array _ _ _ Hwf Hk) as (items & Hi).
    apply Hsame; [congruence| |by rewrite Hi].
    intros Hlk. by apply (proj2 Hwf l l2 k). }
  assert (h' !! l2 = Some (Selector s)) as Hs'.
  { rewrite Hsame; [done|done| |by rewrite Hs].
    intros Hr. destruct (refers_array _ _ _ Hwf Hr) as (items & Hi). congruence. }
  exists s. split; [done|]. split; [done|]. split; [|split; [|done]].
  - rewrite <- Hcl. destruct (myClass s) as [k|] eqn:E; [|done]. simpl.
    rewrite Harr; [done|]. exists s. auto.
  - rewrite <- Hpc. destruct (myPseudoClass s) as [k|] eqn:E; [|done]. simpl.
    rewrite Harr; [done|]. exists s. auto.
Qed.

Lemma local_step_wf h l h' v' :
  wf h -> is_builder h l -> local_step h l h' -> owns h' l v' -> wf h'.
Proof.
  intros Hwf Hl Hstep Hown. pose proof Hstep as (Hsame & Hnew & Hsel). split.
  - intros l2 s2 Hs2. destruct (decide (l2 = l)) as [->|Hne]; [eauto|].
    apply Hsel in Hs2; [|done]. destruct (proj1 Hwf _ _ Hs2) as (v & Hv).
    exists v. by apply (local_step_owns h l).
  - assert (forall l2 k, l2 <> l -> refers h' l2 k -> refers h l2 k) as Hold.
    { intros l2 k Hne (s & Hs & Hr). exists s. split; [by apply Hsel|done]. }
    assert (forall l2 k, l2 <> l -> refers h' l k -> refers h' l2 k -> False) as Hmix.
    { intros l2 k Hne Hr Hr2. apply Hold in Hr2; [|done].
      destruct (Hnew _ Hr) as [Hr'|Hnone].
      - by apply (proj2 Hwf l l2 k).
      - destruct (refers_array _ _ _ Hwf Hr2) as (items & Hi). congruence. }
    intros l1 l2 k Hne H1 H2.
    destruct (decide (l1 = l)) as [->|Hn1]; [by apply (Hmix l2 k)|].
    destruct (decide (l2 = l)) as [->|Hn2]; [by apply (Hmix l1 k)|].
    apply (proj2 Hwf l1 l2 k); auto.
Qed.

Lemma invoke_not_builder h l m : ~ is_builder h l -> attempt m l h = h.
Proof.
  intros Hl. unfold attempt.
  assert (get_this l h = (h, inl TypeError)) as Hget.
  { unfold get_this. destruct (h !! l) as [[s|]|] eqn:E; [|done..].
    destruct Hl. by exists s. }
  assert (forall f, assign l f h = (h, inl TypeError)) as Hassign.
  { intros f. unfold assign. destruct (h !! l) as [[s|]|] eqn:E; [|done..].
    destruct Hl. by exists s. }
  destruct m as [[v|v|v|v|v|v]|s1 c s2]; simpl;
    unfold ElementsSelector.element, ElementsSelector.id, ElementsSelector.class,
      ElementsSelector.attr, ElementsSelector.pseudoClass,
      ElementsSelector.pseudoElement, ElementsSelector.combine,
      ElementsSelector.checkOrder, bind;
    by rewrite ?Hget, ?Hassign.
Qed.

Lemma attempt_wf h l m : wf h -> wf (attempt m l h).
Proof.
  intros Hwf. destruct (h !! l) as [[s|items]|] eqn:E.
  - destruct (proj1 Hwf _ _ E) as (v & Hv).
    destruct (invoke_effect _ _ _ m Hv) as (_ & Hown & Hstep).
    eapply local_step_wf; eauto. by exists s.
  - rewrite invoke_not_builder; [done|]. intros (s & Hs). congruence.
  - rewrite invoke_not_builder; [done|]. intros (s & Hs). congruence.
Qed.

(** A new builder that has no array yet. *)
Lemma alloc_selector_effect h s :
  myClass s = None -> myPseudoClass s = None ->
  let l := fresh (dom h) in
  let h' := <[l := Selector s]> h in
  (forall k, is_Some (h !! k) -> h' !! k = h !! k) /\
  (forall k, ~ refers h' l k) /\
  (wf h -> wf h').
Proof.
  intros Hc Hp l h'. pose proof (fresh_unused h) as Hl. fold l in Hl.
  assert (forall k, is_Some (h !! k) -> h' !! k = h !! k) as Hsame.
  { intros k [o Hk]. unfold h'. rewrite lookup_insert_ne; [done|congruence]. }
  assert (forall k, ~ refers h' l k) as Hnone.
  { intros k (s' & Hs' & Hr). unfold h' in Hs'. rewrite lookup_insert_eq in Hs'.
    injection Hs' as <-. destruct Hr; congruence. }
  split; [done|]. split; [done|]. intros Hwf.
  assert (forall l2 k, l2 <> l -> refers h' l2 k -> refers h l2 k) as Hold.
  { intros l2 k Hne (s2 & Hs2 & Hr). exists s2. split; [|done].
    unfold h' in Hs2. by rewrite lookup_insert_ne in Hs2. }
  split.
  - intros l2 s2 Hs2. destruct (decide (l2 = l)) as [->|Hne].
    + unfold h' in Hs2. rewrite lookup_insert_eq in Hs2. injection Hs2 as <-.
      exists (mkSelector (currOrder s) (myElement s) (myId s) None (myAttr s) None
                (myPseudoElement s) (mySelector s) (myCombinator s) (mySelector2 s)).
      exists s. split; [apply lookup_insert_eq|]. split.
      * intros a Ha. congruence.
      * unfold snapshot_of. by rewrite Hc, Hp.
    + unfold h' in Hs2. rewrite lookup_insert_ne in Hs2 by done.
      destruct (proj1 Hwf _ _ Hs2) as (v & s' & Hs' & Hsep & Hcl & Hpc & Hv).
      rewrite Hs2 in Hs'. injection Hs' as <-.
      exists v, s2. split; [unfold h'; by rewrite lookup_insert_ne|].
      split; [done|]. split; [|split; [|done]].
      * rewrite <- Hcl. destruct (myClass s2) as [k|]; [|done]. simpl.
        apply deref_array in Hcl as (items & Hk & _).
        unfold h'. rewrite lookup_insert_ne; [done|congruence].
      * rewrite <- Hpc. destruct (myPseudoClass s2) as [k|]; [|done]. simpl.
        apply deref_array in Hpc as (items & Hk & _).
        unfold h'. rewrite lookup_insert_ne; [done|congruence].
  - intros l1 l2 k Hne H1 H2.
    destruct (decide (l1 = l)) as [->|Hn1]; [by apply (Hnone k)|].
    destruct (decide (l2 = l)) as [->|Hn2]; [by apply (Hnone k)|].
    apply (proj2 Hwf l1 l2 k); auto.
Qed.

Lemma call_new c : snd (Snapshot.call c Snapshot.new) = None.
Proof. by destruct c. Qed.

(** A facade method that starts a builder returns a builder at a location
    that was not in use, with arrays at locations that were not in use,
    and writes nowhere else. *)
Lemma start_effect c h :
  exists h' l,
    start c h = (h', inr l) /\
    h !! l = None /\
    is_builder h' l /\
    (forall k, is_Some (h !! k) -> h' !! k = h !! k) /\
    (forall k, refers h' l k -> h !! k = None) /\
    (wf h -> wf h').
Proof.
  rewrite start_unfold. unfold bind. rewrite new_run.
  set (l := fresh (dom h)). set (s0 := mkSelector 0 None None None None None None None None None).
  set (h1 := <[l := Selector s0]> h).
  pose proof (fresh_unused h) as Hl. fold l in Hl.
  destruct (alloc_selector_effect h s0 eq_refl eq_refl) as (Hsame & Hnone & Hwf).
  fold l h1 in Hsame, Hnone, Hwf.
  assert (owns h1 l Snapshot.new) as Hown.
  { pose proof (new_owns h) as H. by rewrite new_run in H. }
  destruct (call_effect _ _ _ c Hown) as (Hr & Hown' & Hstep).
  rewrite call_new in Hr.
  exists (fst (call c l h1)), l.
  split; [by destruct (call c l h1); simpl in *; subst|].
  split; [done|]. pose proof Hstep as (Hsame' & Hnew' & _).
  split; [destruct Hown' as (s & ? & _); by exists s|].
  split; [|split].
  - intros k Hk. rewrite Hsame'; [by apply Hsame| |apply Hnone|by rewrite Hsame].
    intros ->. destruct Hk. congruence.
  - intros k Hk. destruct (Hnew' _ Hk) as [Hr'|Hn]; [by apply Hnone in Hr'|].
    unfold h1 in Hn. destruct (decide (l = k)) as [<-|Hne]; [done|].
    by rewrite lookup_insert_ne in Hn.
  - intros Hw.
    apply (local_step_wf h1 l _ (fst (Snapshot.call c Snapshot.new)) (Hwf Hw));
      [exists s0; apply lookup_insert_eq|done..].
Qed.

Lemma facade_combine_wf h a c b : wf h -> wf (fst (cssSelectorBuilder.combine a c b h)).
Proof.
  intros Hwf.
  destruct (snd (ElementsSelector.stringify a h)) as [e|sa] eqn:Ea.
  { unfold cssSelectorBuilder.combine, bind at 1.
    by rewrite (stringify_result _ _ _ Ea). }
  destruct (snd (ElementsSelector.stringify b h)) as [e|sb] eqn:Eb.
  { unfold cssSelectorBuilder.combine, bind at 1.
    rewrite (stringify_result _ _ _ Ea). unfold bind at 1.
    by rewrite (stringify_result _ _ _ Eb). }
  rewrite (facade_combine_run _ _ _ c _ _ Ea Eb). simpl.
  by apply alloc_selector_effect.
Qed.

Lemma reachable_wf h : reachable h -> wf h.
Proof.
  induction 1 as [|h r _ IH]; [apply wf_empty|].
  destruct r as [c|a c b|l m|l]; simpl.
  - destruct (start_effect c h) as (h' & l & -> & _ & _ & _ & _ & Hwf). by apply Hwf.
  - by apply facade_combine_wf.
  - by apply attempt_wf.
  - by rewrite stringify_read_only.
Qed.

(** ** Builders do not share state *)

Lemma owns_unchanged h h' l v : owns h l v -> owns h' l v -> unchanged h h' l.
Proof.
  intros H H'. split.
  - by rewrite (owns_observe _ _ _ H), (owns_observe _ _ _ H').
  - by rewrite (stringify_owns _ _ _ H), (stringify_owns _ _ _ H').
Qed.

Lemma owns_same h h' l v :
  (forall k, is_Some (h !! k) -> h' !! k = h !! k) -> owns h l v -> owns h' l v.
Proof.
  intros Hsame (s & Hs & Hsep & Hcl & Hpc & Hv).
  exists s. split; [by rewrite Hsame by (by rewrite Hs)|]. split; [done|].
  split; [|split; [|done]].
  - rewrite <- Hcl. destruct (myClass s) as [k|]; [|done]. simpl.
    apply deref_array in Hcl as (items & Hk & _).
    by rewrite Hsame by (by rewrite Hk).
  - rewrite <- Hpc. destruct (myPseudoClass s) as [k|]; [|done]. simpl.
    apply deref_array in Hpc as (items & Hk & _).
    by rewrite Hsame by (by rewrite Hk).
Qed.

(** C5: in every store that calls of the facade and of the builders'
    methods can produce, every builder has fields and arrays to observe and
    a [stringify()] result; each facade method (the six that start a builder
    and [combine]) returns a builder at a location that was not in use and
    leaves every builder there was as it was; and a method call on one
    builder, returning or throwing, leaves the fields, the arrays and the
    [stringify()] result of every other builder unchanged. *)
Theorem facade_builders_are_independent (h : heap) :
  reachable h ->
  (forall l, is_builder h l ->
    exists v t, observe h l = Some v /\
                ElementsSelector.stringify l h = (h, inr t)) /\
  (forall c, exists h' l,
      start c h = (h', inr l) /\ h !! l = None /\ is_builder h' l /\
      forall l2, is_builder h l2 -> unchanged h h' l2) /\
  (forall a c b, is_builder h a -> is_builder h b ->
    exists h' l,
      cssSelectorBuilder.combine a c b h = (h', inr l) /\ h !! l = None /\
      is_builder h' l /\
      forall l2, is_builder h l2 -> unchanged h h' l2) /\
  (forall l1 l2 m, l1 <> l2 -> is_builder h l2 -> unchanged h (attempt m l1 h) l2).
Proof.
  intros Hreach. apply reachable_wf in Hreach as Hwf. split; [|split; [|split]].
  - intros l (s & Hs). destruct (proj1 Hwf _ _ Hs) as (v & Hv).
    exists v, (Snapshot.stringify v).
    split; [by apply owns_observe|by apply stringify_owns].
  - intros c. destruct (start_effect c h) as (h' & l & Hs & Hl & Hb & Hsame & _).
    exists h', l. repeat (split; [done|]).
    intros l2 (s2 & Hs2). destruct (proj1 Hwf _ _ Hs2) as (v & Hv).
    apply (owns_unchanged _ _ _ v); [done|by apply (owns_same h)].
  - intros a c b (sa & Ha) (sb & Hb).
    destruct (proj1 Hwf _ _ Ha) as (va & Hva).
    destruct (proj1 Hwf _ _ Hb) as (vb & Hvb).
    pose proof (facade_combine_run h a b c _ _
                  (f_equal snd (stringify_owns _ _ _ Hva))
                  (f_equal snd (stringify_owns _ _ _ Hvb))) as Hrun.
    destruct (alloc_selector_effect h
                (combined (Snapshot.stringify va) c (Snapshot.stringify vb))
                eq_refl eq_refl) as (Hsame & _ & _).
    eexists _, _. split; [exact Hrun|]. split; [apply fresh_unused|].
    split; [eexists; apply lookup_insert_eq|].
    intros l2 (s2 & Hs2). destruct (proj1 Hwf _ _ Hs2) as (v & Hv).
    apply (owns_unchanged _ _ _ v); [done|by apply (owns_same h)].
  - intros l1 l2 m Hne (s2 & Hs2). destruct (proj1 Hwf _ _ Hs2) as (v & Hv).
    apply (owns_unchanged _ _ _ v); [done|].
    destruct (h !! l1) as [[s1|items]|] eqn:E.
    + destruct (proj1 Hwf _ _ E) as (v1 & Hv1).
      destruct (invoke_effect _ _ _ m Hv1) as (_ & _ & Hstep).
      apply (local_step_owns h l1); [done|by exists s1|done..].
    + rewrite invoke_not_builder; [done|]. intros (s & Hs). congruence.
    + rewrite invoke_not_builder; [done|]. intros (s & Hs). congruence.
Qed.

(** Two builders started with [class]; a third class pushed on the first. *)
Lemma facade_builders_are_independent_witness :
  let h := perform (Start (Class "x")) (perform (Start (Class "container")) ∅) in
  reachable h /\
  unchanged h (attempt (Fragment (Class "draggable")) 1%positive h) 3%positive.
Proof.
  intros h.
  assert (reachable h) as Hreach by (do 2 apply reachable_step; apply reachable_initial).
  split; [exact Hreach|].
  destruct (facade_builders_are_independent h Hreach) as (_ & _ & _ & H).
  apply H; [discriminate|]. eexists. vm_compute. reflexivity.
Defined.

(** * Further properties of the builder *)

(** ** Every chain of calls that returns *)

Lemma final_cons c v v1 cs :
  Snapshot.call c v = (v1, None) -> final v1 cs = final v (c :: cs).
Proof.
  unfold Snapshot.call, Snapshot.checkOrder.
  destruct (parts (part_of c) <? currOrder v)%Z; [done|].
  unfold final. rewrite last_rank_cons.
  destruct c as [x|x|x|x|x|x]; simpl;
    repeat match goal with |- context [if ?b then _ else _] => destruct b end;
    intros [= <-]; texts_step; simpl;
    by rewrite ?overwritten_cons, ?appended_cons.
Qed.

Lemma chain_returns_final cs : forall v vf,
  Snapshot.chain cs v = (vf, None) -> vf = final v cs.
Proof.
  induction cs as [|c cs IH]; intros v vf Hc; simpl in Hc.
  { injection Hc as <-. by destruct v. }
  destruct (Snapshot.call c v) as [v1 [e|]] eqn:E; [done|].
  rewrite (IH _ _ Hc). by apply final_cons.
Qed.

(** X1: whenever the calls [cs], made in a chain on a new builder, all return,
    they return that builder and [stringify()] gives the element text,
    ['#'] and the id, the classes each after a ['.'], the attribute between
    brackets, the pseudo-classes each after a [':'] and ['::'] and the
    pseudo-element, each text part with its last value and only when that
    value is not empty. *)
Theorem stringify_of_returned_chain (h h1 h2 : heap) (this r : loc)
    (cs : list setter) :
  ElementsSelector.new h = (h1, inr this) ->
  chain cs this h1 = (h2, inr r) ->
  r = this /\
  ElementsSelector.stringify this h2 = (h2, inr (selector_text cs)).
Proof.
  intros Hnew Hc.
  destruct (chain_returned _ _ _ _ _ _ Hnew Hc) as (vf & Hvf & Hown).
  split.
  - apply new_builder in Hnew. destruct (chain_effect cs _ _ _ Hnew) as (Hr & _).
    rewrite Hc, Hvf in Hr. simpl in Hr. congruence.
  - rewrite (stringify_owns _ _ _ Hown), (chain_returns_final _ _ _ Hvf).
    by rewrite stringify_final.
Qed.

(** The chain [element('').element('p').class('a').attr('x').attr('y')]. *)
Lemma stringify_of_returned_chain_witness :
  let cs := [Element ""; Element "p"; Class "a"; Attr "x"; Attr "y"] in
  let h1 := fst (ElementsSelector.new ∅) in
  let h2 := fst (chain cs 1%positive h1) in
  1%positive = 1%positive /\
  ElementsSelector.stringify 1%positive h2 = (h2, inr "p.a[y]").
Proof.
  intros cs h1 h2.
  apply (stringify_of_returned_chain ∅ h1 h2 1%positive 1%positive cs);
    reflexivity.
Defined.

(** ** The chains of calls that return *)

Lemma assignable_spec vs : forall old,
  assignable old vs <-> vs = [] \/ (truthy old = false /\ empty_but_last vs = true).
Proof.
  induction vs as [|x vs IH]; intros old; [simpl; tauto|].
  cbn [assignable]. rewrite IH. cbn [empty_but_last truthy].
  destruct vs as [|y vs]; [by intuition|].
  destruct (String.eqb x ""); simpl; intuition congruence.
Qed.

Lemma assignable_none vs : assignable None vs <-> empty_but_last vs = true.
Proof.
  rewrite assignable_spec. simpl. split; [|by auto].
  intros [->|[_ H]]; done.
Qed.

Lemma chain_returns_iff cs : forall v,
  snd (Snapshot.chain cs v) = None <->
  in_order_from (currOrder v) cs = true /\
  assignable (myElement v) (texts part_element cs) /\
  assignable (myId v) (texts part_id cs) /\
  assignable (myPseudoElement v) (texts part_pseudo_element cs).
Proof.
  induction cs as [|c cs IH]; intros v; [simpl; tauto|].
  cbn [Snapshot.chain in_order_from]. unfold Snapshot.call, Snapshot.checkOrder.
  fold (rank c).
  destruct (rank c <? currOrder v)%Z eqn:E.
  { apply Z.ltb_lt in E.
    assert ((currOrder v <=? rank c)%Z = false) as -> by (apply Z.leb_gt; lia).
    simpl. split; [done|]. by intros [? _]. }
  apply Z.ltb_ge in E.
  assert ((currOrder v <=? rank c)%Z = true) as -> by (by apply Z.leb_le).
  rewrite andb_true_l.
  destruct c as [x|x|x|x|x|x]; texts_step; cbn [value_of assignable];
    cbn [Snapshot.chain]; simpl.
  - destruct (truthy (myElement v)); [simpl; by intuition|].
    rewrite IH. simpl. tauto.
  - destruct (truthy (myId v)); [simpl; by intuition|].
    rewrite IH. simpl. tauto.
  - rewrite IH. simpl. tauto.
  - rewrite IH. simpl. tauto.
  - rewrite IH. simpl. tauto.
  - destruct (truthy (myPseudoElement v)); [simpl; by intuition|].
    rewrite IH. simpl. tauto.
Qed.

(** X2: a chain of setter calls on a new builder returns exactly when the calls
    respect the rank order and no element, id or pseudo-element call comes
    after one with a non-empty value. *)
Theorem fluent_returns_iff (h : heap) (cs : list setter) :
  (exists l, snd (fluent cs h) = inr l) <->
  respects_order cs /\
  empty_but_last (texts part_element cs) = true /\
  empty_but_last (texts part_id cs) = true /\
  empty_but_last (texts part_pseudo_element cs) = true.
Proof.
  unfold fluent, bind, respects_order. rewrite new_run.
  pose proof (new_owns h) as Hown. rewrite new_run in Hown. simpl in Hown.
  destruct (chain_effect cs _ _ _ Hown) as (Hr & _). rewrite Hr.
  rewrite <- !assignable_none.
  pose proof (chain_returns_iff cs Snapshot.new) as Hiff. simpl in Hiff.
  rewrite <- Hiff. clear Hiff.
  destruct (snd (Snapshot.chain cs Snapshot.new)) as [e|]; split.
  - by intros [l Hl].
  - done.
  - done.
  - eauto.
Qed.

(** ** What a request does to the builders of a store *)

Lemma observe_owns h l v : wf h -> observe h l = Some v -> owns h l v.
Proof.
  intros Hwf Hv. apply observe_snapshot in Hv as (s & Hs & Hsnap).
  destruct (proj1 Hwf _ _ Hs) as (v' & s' & Hs' & Hsep & _).
  rewrite Hs in Hs'. injection Hs' as <-. by exists s.
Qed.

Lemma owns_agree h l v v' : owns h l v -> observe h l = Some v' -> v' = v.
Proof. intros H H'. rewrite (owns_observe _ _ _ H) in H'. congruence. Qed.

(** A builder of [h] that keeps its record and arrays in [h'] is observed
    there as it was. *)
Lemma old_builder h h' l v' :
  wf h -> is_builder h l ->
  (forall v, owns h l v -> owns h' l v) ->
  observe h' l = Some v' -> observe h l = Some v'.
Proof.
  intros Hwf (s & Hs) Hkeep Hv'. destruct (proj1 Hwf _ _ Hs) as (v & Hv).
  rewrite (owns_agree _ _ _ _ (Hkeep _ Hv) Hv'). by apply owns_observe.
Qed.

Lemma start_owns c h :
  let l := fresh (dom h) in
  owns (fst (start c h)) l (fst (Snapshot.call c Snapshot.new)) /\
  (forall k s, k <> l -> fst (start c h) !! k = Some (Selector s) ->
               h !! k = Some (Selector s)) /\
  (forall k, is_Some (h !! k) -> fst (start c h) !! k = h !! k).
Proof.
  intros l. destruct (start_effect c h) as (h' & l' & Hs & _ & _ & Hsame & _).
  rewrite Hs. simpl. split; [|split; [|done]].
  - rewrite start_unfold in Hs. unfold bind in Hs. rewrite new_run in Hs.
    pose proof (new_owns h) as Hown. rewrite new_run in Hown. simpl in Hown.
    destruct (call_effect _ _ _ c Hown) as (_ & Hown' & _).
    fold l in Hs, Hown'.
    destruct (call c l _) as [h2 [e|r]]; simpl in *; by injection Hs as <-.
  - intros k s Hk Hks.
    rewrite start_unfold in Hs. unfold bind in Hs. rewrite new_run in Hs.
    pose proof (new_owns h) as Hown. rewrite new_run in Hown. simpl in Hown.
    destruct (call_effect _ _ _ c Hown) as (_ & _ & _ & _ & Hsel).
    fold l in Hs, Hsel.
    assert (fst (call c l (<[l := Selector
              (mkSelector 0 None None None None None None None None None)]> h)) = h')
      as Hh' by (destruct (call c l _) as [h2 [e|r]]; simpl in *; congruence).
    rewrite Hh' in Hsel. apply Hsel in Hks; [|done].
    by rewrite lookup_insert_ne in Hks.
Qed.

Lemma combined_observe h sa c sb :
  observe (<[fresh (dom h) := Selector (combined sa c sb)]> h) (fresh (dom h))
  = Some (combined_snapshot sa c sb).
Proof. unfold observe. by rewrite lookup_insert_eq. Qed.

(** After a request, a builder is one that was there and is observed as it
    was, or the one a method was called on, or one that a facade method has
    just made. *)
Lemma perform_observe h r l v' :
  wf h -> observe (perform r h) l = Some v' ->
  observe h l = Some v' \/
  (exists m v, observe h l = Some v /\ v' = fst (Snapshot.invoke m v)) \/
  (exists c, v' = fst (Snapshot.call c Snapshot.new)) \/
  (exists sa c sb, v' = combined_snapshot sa c sb).
Proof.
  intros Hwf Hv'. destruct r as [c|a c b|l1 m|l1]; simpl in Hv'.
  - destruct (start_owns c h) as (Hown & Hsel & Hsame).
    destruct (decide (l = fresh (dom h))) as [->|Hne].
    + right; right; left. exists c. by apply (owns_agree _ _ _ _ Hown).
    + left. pose proof Hv' as Hb. apply observe_snapshot in Hb as (s & Hs & _).
      apply (old_builder h (fst (start c h)) l v' Hwf);
        [|intros v; by apply owns_same|done].
      exists s. by apply Hsel.
  - destruct (snd (ElementsSelector.stringify a h)) as [e|sa] eqn:Ea.
    { unfold cssSelectorBuilder.combine, bind at 1 in Hv'.
      rewrite (stringify_result _ _ _ Ea) in Hv'. by left. }
    destruct (snd (ElementsSelector.stringify b h)) as [e|sb] eqn:Eb.
    { unfold cssSelectorBuilder.combine, bind at 1 in Hv'.
      rewrite (stringify_result _ _ _ Ea) in Hv'. unfold bind at 1 in Hv'.
      rewrite (stringify_result _ _ _ Eb) in Hv'. by left. }
    rewrite (facade_combine_run _ _ _ c _ _ Ea Eb) in Hv'. simpl in Hv'.
    destruct (decide (l = fresh (dom h))) as [->|Hne].
    + right; right; right. exists sa, c, sb.
      rewrite combined_observe in Hv'. congruence.
    + left. pose proof Hv' as Hb. apply observe_snapshot in Hb as (s & Hs & _).
      rewrite lookup_insert_ne in Hs by done.
      apply (old_builder h (<[fresh (dom h) := Selector (combined sa c sb)]> h)
               l v' Hwf); [by exists s| |done].
      intros v. apply owns_same.
      by apply (alloc_selector_effect h (combined sa c sb)).
  - destruct (h !! l1) as [[s1|items]|] eqn:E.
    + destruct (proj1 Hwf _ _ E) as (v1 & Hv1).
      destruct (invoke_effect _ _ _ m Hv1) as (_ & Hown & Hstep).
      destruct (decide (l = l1)) as [->|Hne].
      * right; left. exists m, v1. split; [by apply owns_observe|].
        by apply (owns_agree _ _ _ _ Hown).
      * left. pose proof Hv' as Hb. apply observe_snapshot in Hb as (s & Hs & _).
        apply (old_builder h (attempt m l1 h) l v' Hwf); [| |done].
        -- exists s. by apply (proj2 (proj2 Hstep)).
        -- intros v. apply (local_step_owns h l1); [done|by exists s1|done|done].
    + left. rewrite invoke_not_builder in Hv'; [done|]. intros (s & Hs). congruence.
    + left. rewrite invoke_not_builder in Hv'; [done|]. intros (s & Hs). congruence.
  - left. by rewrite stringify_read_only in Hv'.
Qed.

(** A property of snapshots that the methods keep and the new builders have
    holds of every builder a client can bring about. *)
Lemma reachable_invariant (I : Snapshot.t -> Prop) :
  I Snapshot.new ->
  (forall sa c sb, I (combined_snapshot sa c sb)) ->
  (forall m v, I v -> I (fst (Snapshot.invoke m v))) ->
  forall h, reachable h -> forall l v, observe h l = Some v -> I v.
Proof.
  intros Hnew Hcomb Hstep h Hreach.
  induction Hreach as [|h r Hreach IH]; intros l v Hv.
  { unfold observe in Hv. by rewrite lookup_empty in Hv. }
  apply perform_observe in Hv; [|by apply reachable_wf].
  destruct Hv as [Hv|[(m & v0 & Hv0 & ->)|[(c & ->)|(sa & c & sb & ->)]]].
  - by apply (IH l).
  - apply Hstep. by apply (IH l).
  - apply (Hstep (Fragment c)), Hnew.
  - apply Hcomb.
Qed.

(** ** What holds of every builder *)

Lemma pushed_not_empty a x : Snapshot.pushed a x <> Some [].
Proof. unfold Snapshot.pushed. intros [= H]. by destruct (default [] a). Qed.

Lemma consistent_new : consistent Snapshot.new.
Proof.
  unfold consistent. simpl. repeat split; try done; try lia.
  intros p. by destruct p.
Qed.

Lemma consistent_combined sa c sb : consistent (combined_snapshot sa c sb).
Proof.
  unfold consistent. simpl. repeat split; try done; try lia.
  intros p. by destruct p.
Qed.

Lemma invoke_consistent m v : consistent v -> consistent (fst (Snapshot.invoke m v)).
Proof.
  intros (Hb & Hst & Hcl & Hpc & Hce & Hpe).
  pose proof (Hst part_element) as H0. pose proof (Hst part_id) as H1.
  pose proof (Hst part_attr) as H3. pose proof (Hst part_pseudo_element) as H5.
  simpl in H0, H1, H3, H5, Hcl, Hpc.
  destruct m as [c|s1 c s2]; simpl.
  2:{ unfold consistent. simpl. repeat split; try done; try lia. }
  unfold Snapshot.call, Snapshot.checkOrder. fold (rank c).
  destruct (rank c <? currOrder v)%Z eqn:E; simpl.
  { unfold consistent. repeat split; try done; try lia. }
  apply Z.ltb_ge in E. unfold rank in E.
  destruct c as [x|x|x|x|x|x]; unfold rank; simpl in *;
    repeat match goal with |- context [if ?b then _ else _] => destruct b end;
    unfold consistent; simpl;
    (split; [lia|]);
    (split; [intros p Hp; destruct p; simpl in *; try done; try lia;
             (try (apply H0 in Hp)); (try (apply H1 in Hp));
             (try (apply H3 in Hp)); (try (apply H5 in Hp)); lia|]);
    (split; [intros Hp; try lia; apply Hcl in Hp; lia|]);
    (split; [intros Hp; try lia; apply Hpc in Hp; lia|]);
    (split; [try done; apply pushed_not_empty|]);
    try done; apply pushed_not_empty.
Qed.

Lemma reachable_consistent h l v :
  reachable h -> observe h l = Some v -> consistent v.
Proof.
  intros Hreach. revert l v.
  apply (reachable_invariant consistent);
    auto using consistent_new, consistent_combined, invoke_consistent.
Qed.

(** X6: in every store a client can bring about, the [currOrder] of a builder
    is one of the ranks 0 to 5, and every fragment the builder holds
    (element, id, attribute or pseudo-element text, class or pseudo-class
    array) has a rank of at most [currOrder]. *)
Theorem fragments_below_currOrder (h : heap) (l : loc) (v : Snapshot.t) :
  reachable h ->
  observe h l = Some v ->
  (0 <= currOrder v <= 5)%Z /\
  (forall p, stored p v <> None -> (parts p <= currOrder v)%Z) /\
  (myClass v <> None -> (2 <= currOrder v)%Z) /\
  (myPseudoClass v <> None -> (4 <= currOrder v)%Z).
Proof.
  intros Hreach Hv.
  destruct (reachable_consistent _ _ _ Hreach Hv) as (? & ? & ? & ? & _).
  auto.
Qed.

(** After [id('main').class('a')], and [element('p')] attempted on it. *)
Lemma fragments_below_currOrder_witness :
  let h := perform (On 1%positive (Fragment (Element "p")))
             (perform (On 1%positive (Fragment (Class "a")))
                (perform (Start (Id "main")) ∅)) in
  exists v, observe h 1%positive = Some v /\
            (0 <= currOrder v <= 5)%Z /\
            (forall p, stored p v <> None -> (parts p <= currOrder v)%Z) /\
            (myClass v <> None -> (2 <= currOrder v)%Z) /\
            (myPseudoClass v <> None -> (4 <= currOrder v)%Z).
Proof.
  intros h. eexists. split; [vm_compute; reflexivity|].
  apply (fragments_below_currOrder h 1%positive).
  - do 3 apply reachable_step. apply reachable_initial.
  - vm_compute. reflexivity.
Defined.

(** X7: in every store a client can bring about, the class array and the
    pseudo-class array of a builder, when they exist, have at least one
    item: an array is only made by the call that pushes to it. *)
Theorem arrays_have_items (h : heap) (l : loc) (v : Snapshot.t) :
  reachable h ->
  observe h l = Some v ->
  myClass v <> Some [] /\ myPseudoClass v <> Some [].
Proof.
  intros Hreach Hv.
  destruct (reachable_consistent _ _ _ Hreach Hv) as (_ & _ & _ & _ & ? & ?).
  auto.
Qed.

(** A builder started with [class('a')] and then [element('p')] attempted. *)
Lemma arrays_have_items_witness :
  let h := perform (On 1%positive (Fragment (Element "p")))
             (perform (Start (Class "a")) ∅) in
  exists v, observe h 1%positive = Some v /\
            myClass v <> Some [] /\ myPseudoClass v <> Some [].
Proof.
  intros h. eexists. split; [vm_compute; reflexivity|].
  apply (arrays_have_items h 1%positive).
  - do 2 apply reachable_step. apply reachable_initial.
  - vm_compute. reflexivity.
Defined.

(** ** What a setter call does, and what a throw leaves *)

Lemma call_outcome c v : snd (Snapshot.call c v) = outcome c v.
Proof.
  unfold Snapshot.call, Snapshot.checkOrder, outcome. fold (rank c).
  destruct (rank c <? currOrder v)%Z; [done|].
  destruct c; simpl;
    repeat match goal with |- context [if ?b then _ else _] => destruct b end;
    done.
Qed.

(** X4: in every store a client can bring about, a setter call on a builder
    throws OrderViolation when its rank is below [currOrder]; otherwise
    [element], [id] and [pseudoElement] throw DuplicateFragment when their
    field holds a non-empty text; in every other case the call returns the
    builder it was called on. [class], [attr] and [pseudoClass] never throw
    DuplicateFragment. *)
Theorem setter_outcome (h : heap) (l : loc) (v : Snapshot.t) (c : setter) :
  reachable h ->
  observe h l = Some v ->
  snd (call c l h) =
    match outcome c v with
    | Some e => inl e
    | None => inr l
    end.
Proof.
  intros Hreach Hv. apply reachable_wf in Hreach.
  apply (observe_owns _ _ _ Hreach) in Hv.
  destruct (call_effect _ _ _ c Hv) as (-> & _ & _). by rewrite call_outcome.
Qed.

(** On the builder [id('main')]: a second [id] throws, a [class] returns. *)
Lemma setter_outcome_witness :
  let h := perform (Start (Id "main")) ∅ in
  snd (call (Id "x") 1%positive h) = inl DuplicateFragment /\
  snd (call (Class "x") 1%positive h) = inr 1%positive.
Proof.
  intros h.
  assert (reachable h) as Hreach by (apply reachable_step, reachable_initial).
  split.
  - apply (setter_outcome h 1%positive
             (mkSelector 1 None (Some "main") None None None None None None None)
             (Id "x") Hreach).
    vm_compute. reflexivity.
  - apply (setter_outcome h 1%positive
             (mkSelector 1 None (Some "main") None None None None None None None)
             (Class "x") Hreach).
    vm_compute. reflexivity.
Defined.

Lemma set_currOrder_same {R} (s : ElementsSelector R) :
  set_currOrder (currOrder s) s = s.
Proof. by destruct s. Qed.

Lemma truthy_set (o : option string) : truthy o = true -> o <> None.
Proof. by destruct o. Qed.

(** X5: in every store a client can bring about, a method call on a builder
    that throws has written nothing: the store is as it was before the
    call, and what is thrown is the ordering or the duplication error. *)
Theorem throwing_call_writes_nothing (h : heap) (l : loc) (m : method) (e : exn) :
  reachable h ->
  is_builder h l ->
  snd (invoke m l h) = inl e ->
  fst (invoke m l h) = h /\ (e = OrderViolation \/ e = DuplicateFragment).
Proof.
  intros Hreach (s & Hs) Hthrow. pose proof (reachable_wf _ Hreach) as Hwf.
  destruct (proj1 Hwf _ _ Hs) as (v & s' & Hs' & Hsep & Hcl & Hpc & Hv).
  rewrite Hs in Hs'. injection Hs' as <-.
  assert (observe h l = Some v) as Hobs
    by (apply owns_observe; exists s; repeat split; done).
  destruct (reachable_consistent _ _ _ Hreach Hobs) as (Hb & Hst & _).
  assert (currOrder v = currOrder s) as Ho by (by rewrite Hv).
  pose proof (Hst part_element) as H0. pose proof (Hst part_id) as H1.
  pose proof (Hst part_pseudo_element) as H5.
  rewrite Hv in H0, H1, H5. simpl in H0, H1, H5. rewrite Ho in Hb.
  assert (forall r, currOrder s = r ->
            <[l := Selector (set_currOrder r s)]> h = h) as Hid.
  { intros r <-. rewrite set_currOrder_same. by apply insert_id. }
  destruct m as [[x|x|x|x|x|x]|s1 c s2]; simpl in *.
  - rewrite (element_run _ _ _ _ Hs) in *. simpl in *.
    destruct (0 <? currOrder s)%Z eqn:E; simpl in *;
      [injection Hthrow as <-; auto|].
    apply Z.ltb_ge in E.
    destruct (truthy (myElement s)) eqn:T; simpl in *; [|done].
    injection Hthrow as <-. split; [|auto]. apply Hid. lia.
  - rewrite (id_run _ _ _ _ Hs) in *. simpl in *.
    destruct (1 <? currOrder s)%Z eqn:E; simpl in *;
      [injection Hthrow as <-; auto|].
    apply Z.ltb_ge in E.
    destruct (truthy (myId s)) eqn:T; simpl in *; [|done].
    injection Hthrow as <-. split; [|auto]. apply Hid.
    apply truthy_set, H1 in T. lia.
  - rewrite (class_run _ _ _ _ _ Hs Hcl) in *.
    destruct (parts part_class <? currOrder s)%Z; simpl in *; [|done].
    injection Hthrow as <-. auto.
  - rewrite (attr_run _ _ _ _ Hs) in *.
    destruct (parts part_attr <? currOrder s)%Z; simpl in *; [|done].
    injection Hthrow as <-. auto.
  - rewrite (pseudoClass_run _ _ _ _ _ Hs Hpc) in *.
    destruct (parts part_pseudo_class <? currOrder s)%Z; simpl in *; [|done].
    injection Hthrow as <-. auto.
  - rewrite (pseudoElement_run _ _ _ _ Hs) in *. simpl in *.
    destruct (5 <? currOrder s)%Z eqn:E; simpl in *;
      [injection Hthrow as <-; auto|].
    apply Z.ltb_ge in E.
    destruct (truthy (myPseudoElement s)) eqn:T; simpl in *; [|done].
    injection Hthrow as <-. split; [|auto]. apply Hid.
    apply truthy_set, H5 in T. lia.
  - rewrite (combine_run _ _ _ _ _ _ Hs) in Hthrow. done.
Qed.

(** On [element('div').id('main')]: [id('x')] and [element('p')] throw. *)
Lemma throwing_call_writes_nothing_witness :
  let h := perform (On 1%positive (Fragment (Id "main")))
             (perform (Start (Element "div")) ∅) in
  (fst (invoke (Fragment (Id "x")) 1%positive h) = h /\
   (DuplicateFragment = OrderViolation \/ DuplicateFragment = DuplicateFragment)) /\
  (fst (invoke (Fragment (Element "p")) 1%positive h) = h /\
   (OrderViolation = OrderViolation \/ OrderViolation = DuplicateFragment)).
Proof.
  intros h.
  assert (reachable h) as Hreach by (do 2 apply reachable_step; apply reachable_initial).
  assert (is_builder h 1%positive) as Hb by (eexists; vm_compute; reflexivity).
  split.
  - apply (throwing_call_writes_nothing h 1%positive (Fragment (Id "x"))
             DuplicateFragment Hreach Hb).
    vm_compute. reflexivity.
  - apply (throwing_call_writes_nothing h 1%positive (Fragment (Element "p"))
             OrderViolation Hreach Hb).
    vm_compute. reflexivity.
Defined.

(** ** Combined builders *)

Lemma append_nonempty (a b : string) : a <> "" -> a ++ b <> "".
Proof. destruct a as [|x a]; [done|]. by rewrite append_cons. Qed.

Lemma truthy_text (s : string) : s <> "" -> truthy (Some s) = true.
Proof. intros H. simpl. by destruct (String.eqb_spec s ""). Qed.

(** X8: when a text is empty, the facade's [combine] returns a builder whose
    [stringify()] gives the empty text: combinator and other text are
    lost. *)
Theorem combine_with_empty_text (h : heap) (a b : loc) (c sa sb : string) :
  snd (ElementsSelector.stringify a h) = inr sa ->
  snd (ElementsSelector.stringify b h) = inr sb ->
  sa = "" \/ sb = "" ->
  exists h' k,
    cssSelectorBuilder.combine a c b h = (h', inr k) /\
    ElementsSelector.stringify k h' = (h', inr "").
Proof.
  intros Ha Hb Hempty. eexists _, _. split; [by apply facade_combine_run|].
  rewrite (combined_text _ _ sa c sb) by apply lookup_insert_eq.
  destruct Hempty as [-> | ->]; simpl; [done|by rewrite andb_false_r].
Qed.

(** [combine(element('div'), '>', attr(''))] *)
Lemma combine_with_empty_text_witness :
  exists h' k,
    cssSelectorBuilder.combine 1%positive ">" 2%positive
      (fst (cssSelectorBuilder.attr "" (fst (cssSelectorBuilder.element "div" ∅))))
    = (h', inr k) /\
    ElementsSelector.stringify k h' = (h', inr "").
Proof.
  apply (combine_with_empty_text _ 1%positive 2%positive ">" "div" "");
    try (vm_compute; reflexivity).
  by right.
Defined.

Lemma call_keeps_joined c v :
  mySelector (fst (Snapshot.call c v)) = mySelector v /\
  myCombinator (fst (Snapshot.call c v)) = myCombinator v /\
  mySelector2 (fst (Snapshot.call c v)) = mySelector2 v.
Proof.
  unfold Snapshot.call, Snapshot.checkOrder.
  destruct (parts (part_of c) <? currOrder v)%Z; [done|].
  destruct c; simpl;
    repeat match goal with |- context [if ?b then _ else _] => destruct b end;
    done.
Qed.

Lemma fragments_keep_joined cs : forall v,
  let v' := Snapshot.attempts (map Fragment cs) v in
  mySelector v' = mySelector v /\
  myCombinator v' = myCombinator v /\
  mySelector2 v' = mySelector2 v.
Proof.
  induction cs as [|c cs IH]; intros v; [done|]. simpl.
  destruct (IH (fst (Snapshot.call c v))) as (-> & -> & ->).
  apply call_keeps_joined.
Qed.

Lemma stringify_joined v sa c sb :
  mySelector v = Some sa -> myCombinator v = Some c -> mySelector2 v = Some sb ->
  sa <> "" -> sb <> "" ->
  Snapshot.stringify v = sa ++ " " ++ c ++ " " ++ sb.
Proof.
  intros H1 Hc H2 Ha Hb. unfold Snapshot.stringify.
  by rewrite H1, Hc, H2, !truthy_text.
Qed.

Lemma combined_owns h sa c sb :
  owns (<[fresh (dom h) := Selector (combined sa c sb)]> h) (fresh (dom h))
       (combined_snapshot sa c sb).
Proof.
  exists (combined sa c sb). split; [apply lookup_insert_eq|].
  split; [by intros a|]. by repeat split.
Qed.

(** X9: the fragment setters have no effect on the text of a builder that the
    facade's [combine] made from two non-empty texts: whatever setters are
    then called on it, [stringify()] still gives the combination. *)
Theorem combined_builder_ignores_fragments (h h1 : heap) (a b k : loc)
    (c sa sb : string) (cs : list setter) :
  snd (ElementsSelector.stringify a h) = inr sa ->
  snd (ElementsSelector.stringify b h) = inr sb ->
  sa <> "" -> sb <> "" ->
  cssSelectorBuilder.combine a c b h = (h1, inr k) ->
  snd (ElementsSelector.stringify k (attempts (map Fragment cs) k h1))
  = inr (sa ++ " " ++ c ++ " " ++ sb).
Proof.
  intros Ha Hb Hsa Hsb Hc.
  rewrite (facade_combine_run _ _ _ c _ _ Ha Hb) in Hc. injection Hc as <- <-.
  pose proof (combined_owns h sa c sb) as Hown.
  apply (attempts_effect (map Fragment cs)) in Hown.
  rewrite (stringify_owns _ _ _ Hown). simpl. f_equal.
  destruct (fragments_keep_joined cs (combined_snapshot sa c sb)) as (H1 & H2 & H3).
  by apply stringify_joined.
Qed.

(** [combine(element('a'), '+', element('b'))], then [class('c')] and
    [pseudoElement('d')] on the result. *)
Lemma combined_builder_ignores_fragments_witness :
  let h := fst (cssSelectorBuilder.element "b"
                  (fst (cssSelectorBuilder.element "a" ∅))) in
  let h1 := fst (cssSelectorBuilder.combine 1%positive "+" 2%positive h) in
  snd (ElementsSelector.stringify 3%positive
         (attempts (map Fragment [Class "c"; PseudoElement "d"]) 3%positive h1))
  = inr "a + b".
Proof.
  intros h h1.
  apply (combined_builder_ignores_fragments h h1 1%positive 2%positive 3%positive
           "+" "a" "b" [Class "c"; PseudoElement "d"]);
    try (vm_compute; reflexivity); discriminate.
Defined.

Lemma stringify_after_alloc h a sa s :
  wf h ->
  snd (ElementsSelector.stringify a h) = inr sa ->
  myClass s = None -> myPseudoClass s = None ->
  snd (ElementsSelector.stringify a (<[fresh (dom h) := Selector s]> h)) = inr sa.
Proof.
  intros Hwf Ha Hc Hp. destruct (stringify_builder _ _ _ Ha) as (sa' & Hs).
  destruct (proj1 Hwf _ _ Hs) as (v & Hv).
  rewrite (stringify_owns _ _ _ Hv) in Ha.
  destruct (alloc_selector_effect h s Hc Hp) as (Hsame & _).
  by rewrite (stringify_owns _ _ v (owns_same _ _ _ _ Hsame Hv)).
Qed.

(** X10: combining is associative in the text it gives: for three builders with
    non-empty texts, [combine(combine(a, c1, b), c2, d)] and
    [combine(a, c1, combine(b, c2, d))] both give the three texts in order
    with [c1] and [c2] between them, each combinator between two spaces. *)
Theorem nested_combine_text (h : heap) (a b d : loc) (c1 c2 sa sb sd : string) :
  reachable h ->
  snd (ElementsSelector.stringify a h) = inr sa ->
  snd (ElementsSelector.stringify b h) = inr sb ->
  snd (ElementsSelector.stringify d h) = inr sd ->
  sa <> "" -> sb <> "" -> sd <> "" ->
  snd ((let! ab := cssSelectorBuilder.combine a c1 b in
        let! r := cssSelectorBuilder.combine ab c2 d in
        ElementsSelector.stringify r) h)
    = inr (sa ++ " " ++ c1 ++ " " ++ sb ++ " " ++ c2 ++ " " ++ sd) /\
  snd ((let! bd := cssSelectorBuilder.combine b c2 d in
        let! r := cssSelectorBuilder.combine a c1 bd in
        ElementsSelector.stringify r) h)
    = inr (sa ++ " " ++ c1 ++ " " ++ sb ++ " " ++ c2 ++ " " ++ sd).
Proof.
  intros Hreach Ha Hb Hd Hsa Hsb Hsd. apply reachable_wf in Hreach as Hwf.
  split.
  - unfold bind at 1. rewrite (facade_combine_run _ _ _ c1 _ _ Ha Hb).
    set (h1 := <[fresh (dom h) := Selector (combined sa c1 sb)]> h).
    assert (snd (ElementsSelector.stringify (fresh (dom h)) h1)
            = inr (sa ++ " " ++ c1 ++ " " ++ sb)) as Hab.
    { unfold h1. rewrite (combined_text _ _ sa c1 sb) by apply lookup_insert_eq.
      by rewrite !truthy_text. }
    assert (snd (ElementsSelector.stringify d h1) = inr sd) as Hd1
      by (by apply stringify_after_alloc).
    unfold bind at 1. rewrite (facade_combine_run _ _ _ c2 _ _ Hab Hd1).
    rewrite (combined_text _ _ (sa ++ " " ++ c1 ++ " " ++ sb) c2 sd)
      by apply lookup_insert_eq.
    rewrite !truthy_text by (done || by apply append_nonempty). simpl.
    by rewrite !append_assoc.
  - unfold bind at 1. rewrite (facade_combine_run _ _ _ c2 _ _ Hb Hd).
    set (h1 := <[fresh (dom h) := Selector (combined sb c2 sd)]> h).
    assert (snd (ElementsSelector.stringify (fresh (dom h)) h1)
            = inr (sb ++ " " ++ c2 ++ " " ++ sd)) as Hbd.
    { unfold h1. rewrite (combined_text _ _ sb c2 sd) by apply lookup_insert_eq.
      by rewrite !truthy_text. }
    assert (snd (ElementsSelector.stringify a h1) = inr sa) as Ha1
      by (by apply stringify_after_alloc).
    unfold bind at 1. rewrite (facade_combine_run _ _ _ c1 _ _ Ha1 Hbd).
    rewrite (combined_text _ _ sa c1 (sb ++ " " ++ c2 ++ " " ++ sd))
      by apply lookup_insert_eq.
    by rewrite !truthy_text by (done || by apply append_nonempty).
Qed.

(** The builders [element('a')], [element('b')] and [element('c')]. *)
Lemma nested_combine_text_witness :
  let h := perform (Start (Element "c"))
             (perform (Start (Element "b")) (perform (Start (Element "a")) ∅)) in
  snd ((let! ab := cssSelectorBuilder.combine 1%positive "+" 2%positive in
        let! r := cssSelectorBuilder.combine ab "~" 3%positive in
        ElementsSelector.stringify r) h) = inr "a + b ~ c" /\
  snd ((let! bd := cssSelectorBuilder.combine 2%positive "~" 3%positive in
        let! r := cssSelectorBuilder.combine 1%positive "+" bd in
        ElementsSelector.stringify r) h) = inr "a + b ~ c".
Proof.
  intros h.
  apply (nested_combine_text h 1%positive 2%positive 3%positive "+" "~" "a" "b" "c");
    try (vm_compute; reflexivity); try discriminate.
  do 3 apply reachable_step. apply reachable_initial.
Defined.

(** ** A builder and the rest of the store *)

Lemma text_of_snapshot cs h :
  snd (text_of cs h) =
    match Snapshot.chain cs Snapshot.new with
    | (_, Some e) => inl e
    | (vf, None) => inr (Snapshot.stringify vf)
    end.
Proof.
  unfold text_of, fluent, bind. rewrite new_run.
  pose proof (new_owns h) as Hown. rewrite new_run in Hown. simpl in Hown.
  destruct (chain_effect cs _ _ _ Hown) as (Hr & Hown').
  destruct (chain cs _ _) as [h2 r]. simpl in *.
  destruct (Snapshot.chain cs Snapshot.new) as [vf [e|]]; simpl in *; subst r;
    [done|].
  by rewrite (stringify_owns _ _ _ Hown').
Qed.

(** X12: what a chain of setter calls on a new builder throws, or the text that
    [stringify()] then gives, does not depend on the objects that exist
    when the builder is made. *)
Theorem text_of_any_store (cs : list setter) (h h' : heap) :
  snd (text_of cs h) = snd (text_of cs h').
Proof. by rewrite !text_of_snapshot. Qed.

(** X13: only the facade makes builders: a method call leaves the builders of
    the store the same, and a facade method that starts a builder adds the
    one it returns and no other. *)
Theorem only_the_facade_makes_builders (h : heap) :
  reachable h ->
  (forall l m k, is_builder (attempt m l h) k <-> is_builder h k) /\
  (forall c k, is_builder (fst (start c h)) k <->
               k = fresh (dom h) \/ is_builder h k).
Proof.
  intros Hreach. apply reachable_wf in Hreach as Hwf. split.
  - intros l m k. destruct (h !! l) as [[s|items]|] eqn:E.
    + destruct (proj1 Hwf _ _ E) as (v & Hv).
      destruct (invoke_effect _ _ _ m Hv) as (_ & Hown & _ & _ & Hsel).
      destruct (decide (k = l)) as [->|Hne].
      * split; intros _; [by exists s|].
        destruct Hown as (s' & Hs' & _). by exists s'.
      * split; intros (sk & Hk); exists sk.
        -- by apply Hsel.
        -- by apply (invoke_keeps k sk l m).
    + rewrite invoke_not_builder; [done|]. intros (s & Hs). congruence.
    + rewrite invoke_not_builder; [done|]. intros (s & Hs). congruence.
  - intros c k. destruct (start_owns c h) as (Hown & Hsel & Hsame). split.
    + intros (sk & Hk). destruct (decide (k = fresh (dom h))) as [|Hne]; [by left|].
      right. exists sk. by apply Hsel.
    + intros [->|(sk & Hk)].
      * destruct Hown as (s' & Hs' & _). by exists s'.
      * exists sk. rewrite Hsame; [done|by rewrite Hk].
Qed.

(** Two builders; [class('x')] called on the first. *)
Lemma only_the_facade_makes_builders_witness :
  let h := perform (Start (Id "b")) (perform (Start (Id "a")) ∅) in
  is_builder (attempt (Fragment (Class "x")) 1%positive h) 2%positive
  <-> is_builder h 2%positive.
Proof.
  intros h.
  apply (only_the_facade_makes_builders h).
  do 2 apply reachable_step. apply reachable_initial.
Defined.

(** ** The fields after a chain of calls *)

Lemma appended_none vs :
  appended None vs = match vs with [] => None | _ => Some vs end.
Proof. by destruct vs. Qed.

(** X3: whenever the calls [cs], made in a chain on a new builder, all return,
    the builder holds: as [currOrder] the rank of the last call, as element,
    id, attribute and pseudo-element the value of the last call of that
    setter, as classes and pseudo-classes the values of all the calls of
    that setter in call order (no array when there was no call), and no
    combination. *)
Theorem fields_of_returned_chain (h h1 h2 : heap) (this r : loc)
    (cs : list setter) :
  ElementsSelector.new h = (h1, inr this) ->
  chain cs this h1 = (h2, inr r) ->
  observe h2 this =
    Some (mkSelector
            (from_option rank 0%Z (last cs))
            (last (texts part_element cs))
            (last (texts part_id cs))
            (match texts part_class cs with [] => None | vs => Some vs end)
            (last (texts part_attr cs))
            (match texts part_pseudo_class cs with [] => None | vs => Some vs end)
            (last (texts part_pseudo_element cs))
            None None None).
Proof.
  intros Hnew Hc.
  destruct (chain_returned _ _ _ _ _ _ Hnew Hc) as (vf & Hvf & Hown).
  rewrite (owns_observe _ _ _ Hown), (chain_returns_final _ _ _ Hvf).
  unfold final. simpl. rewrite !overwritten_none, !appended_none.
  by destruct (texts part_class cs), (texts part_pseudo_class cs).
Qed.

(** The chain [class('a').class('b').attr('x').attr('y')]. *)
Lemma fields_of_returned_chain_witness :
  let cs := [Class "a"; Class "b"; Attr "x"; Attr "y"] in
  let h1 := fst (ElementsSelector.new ∅) in
  observe (fst (chain cs 1%positive h1)) 1%positive =
    Some (mkSelector 3 None None (Some ["a"; "b"]) (Some "y") None None
            None None None).
Proof.
  intros cs h1.
  apply (fields_of_returned_chain ∅ h1 (fst (chain cs 1%positive h1))
           1%positive 1%positive cs); reflexivity.
Defined.

(** ** The method combine *)

(** X11: in every store a client can bring about, [combine] called on a builder
    with two non-empty texts returns that builder, whatever its
    [currOrder] and fragments, and [stringify()] then gives the two texts
    with the combinator between them and none of the fragments. *)
Theorem combine_method_overrides_fragments (h : heap) (l : loc)
    (s1 c s2 : string) :
  reachable h ->
  is_builder h l ->
  s1 <> "" -> s2 <> "" ->
  exists h',
    ElementsSelector.combine l s1 c s2 h = (h', inr l) /\
    ElementsSelector.stringify l h' = (h', inr (s1 ++ " " ++ c ++ " " ++ s2)).
Proof.
  intros Hreach (s & Hs) H1 H2. apply reachable_wf in Hreach as Hwf.
  destruct (proj1 Hwf _ _ Hs) as (v & Hv).
  destruct (invoke_effect _ _ _ (Combine s1 c s2) Hv) as (Hr & Hown & _).
  simpl in Hr, Hown.
  exists (fst (ElementsSelector.combine l s1 c s2 h)). split.
  - by destruct (ElementsSelector.combine l s1 c s2 h); simpl in *; subst.
  - rewrite (stringify_owns _ _ _ Hown). do 2 f_equal.
    by apply stringify_joined.
Qed.

(** [combine('x', '>', 'y')] called on the builder [element('div').id('m')]. *)
Lemma combine_method_overrides_fragments_witness :
  let h := perform (On 1%positive (Fragment (Id "m")))
             (perform (Start (Element "div")) ∅) in
  exists h',
    ElementsSelector.combine 1%positive "x" ">" "y" h = (h', inr 1%positive) /\
    ElementsSelector.stringify 1%positive h' = (h', inr "x > y").
Proof.
  intros h.
  apply (combine_method_overrides_fragments h 1%positive "x" ">" "y");
    try discriminate.
  - do 2 apply reachable_step. apply reachable_initial.
  - eexists. vm_compute. reflexivity.
Defined.
